(** * Naive mixed-precision optimizer of ColossalAI: loss scaling and the
      FP16 optimizer wrapper

    Shallow embedding of [colossalai/amp/naive_amp/_fp16_optimizer.py].

    - [DynamicGradScaler] is the loss-scale state machine.  The tensors
      [_scale], [min_scale], [growth_factor] and [backoff_factor] hold one
      number each; they are modelled as rationals with exact arithmetic
      (the rounding of single precision is not modelled), the trackers as
      integers.
    - [FP16Optimizer] works on a store of tensors addressed by identity, so
      that the parameter lists of the wrapper and of the wrapped optimizer
      alias the same tensors, as the Python lists do. *)

From Stdlib Require Import QArith Qminmax Qround Lqa ZArith Lia List String.
From stdpp Require Import base option list gmap strings.

(** ** Numbers *)

Definition Qlt_bool (a b : Q) : bool := negb (Qle_bool b a).

(** ** The loss-scale state machine *)

Module DynamicGradScaler.
Local Open Scope Q_scope.

(** The attributes of the Python object.  [verbose] and the logger only
    drive diagnostic output and are left out. *)
Record t := mk {
  _scale : Q;
  min_scale : Q;
  growth_factor : Q;
  backoff_factor : Q;
  growth_interval : Z;
  hysteresis : Z;
  _max_scale : option Q;
  _growth_tracker : Z;
  _hysteresis_tracker : Z
}.

(** [__init__]: every [assert] of the constructor; [None] stands for the
    AssertionError. *)
Definition __init__ (initial_scale min_scale growth_factor backoff_factor : Q)
    (growth_interval hysteresis : Z) (max_scale : option Q) : option t :=
  if negb (Qlt_bool 0 initial_scale) then None
  else if negb (Qlt_bool 0 min_scale) then None
  else if negb (Qle_bool min_scale initial_scale) then None
  else if negb (Qlt_bool 1 growth_factor) then None
  else if negb (Qlt_bool backoff_factor 1) then None
  else if negb (Qlt_bool 0 backoff_factor) then None
  else if negb (0 <? growth_interval)%Z then None
  else if negb (0 <? hysteresis)%Z then None
  else if match max_scale with
          | Some m => negb (Qlt_bool 1 m && Qle_bool initial_scale m)
          | None => false
          end then None
  else Some {| _scale := initial_scale;
               min_scale := min_scale;
               growth_factor := growth_factor;
               backoff_factor := backoff_factor;
               growth_interval := growth_interval;
               hysteresis := hysteresis;
               _max_scale := max_scale;
               _growth_tracker := 0;
               _hysteresis_tracker := hysteresis |}.

Definition set_scale (s : t) (x : Q) : t :=
  mk x (min_scale s) (growth_factor s) (backoff_factor s) (growth_interval s)
     (hysteresis s) (_max_scale s) (_growth_tracker s) (_hysteresis_tracker s).

Definition set_growth_tracker (s : t) (g : Z) : t :=
  mk (_scale s) (min_scale s) (growth_factor s) (backoff_factor s)
     (growth_interval s) (hysteresis s) (_max_scale s) g (_hysteresis_tracker s).

Definition set_hysteresis_tracker (s : t) (h : Z) : t :=
  mk (_scale s) (min_scale s) (growth_factor s) (backoff_factor s)
     (growth_interval s) (hysteresis s) (_max_scale s) (_growth_tracker s) h.

Definition scale (s : t) : Q := _scale s.

(** [inv_scale]: the reciprocal, taken in double precision in the source. *)
Definition inv_scale (s : t) : Q := / _scale s.

(** [self._max_scale is not None and self._scale >= self._max_scale] *)
Definition reached_max (s : t) : bool :=
  match _max_scale s with
  | Some m => Qle_bool m (_scale s)
  | None => false
  end.

Definition update (s : t) (found_inf : bool) : t :=
  if found_inf then
    let s := set_growth_tracker s 0 in
    let s := set_hysteresis_tracker s (_hysteresis_tracker s - 1) in
    if (_hysteresis_tracker s <=? 0)%Z
    then set_scale s (Qmax (_scale s * backoff_factor s) (min_scale s))
    else s
  else
    let s := set_growth_tracker s (_growth_tracker s + 1) in
    if (_growth_tracker s =? growth_interval s)%Z then
      let s := set_growth_tracker s 0 in
      let s := set_hysteresis_tracker s (hysteresis s) in
      if reached_max s then s
      else set_scale s (_scale s * growth_factor s)
    else s.

(** The checkpoint of the scaler: a dictionary with exactly these four
    keys. *)
Record state := mk_state {
  sd_max_scale : option Q;
  sd_scale : Q;
  sd_growth_tracker : Z;
  sd_hysteresis_tracker : Z
}.

Definition state_dict (s : t) : state :=
  {| sd_max_scale := _max_scale s;
     sd_scale := _scale s;
     sd_growth_tracker := _growth_tracker s;
     sd_hysteresis_tracker := _hysteresis_tracker s |}.

Definition load_state_dict (s : t) (d : state) : t :=
  mk (sd_scale d) (min_scale s) (growth_factor s) (backoff_factor s)
     (growth_interval s) (hysteresis s) (sd_max_scale d)
     (sd_growth_tracker d) (sd_hysteresis_tracker d).

(** A sequence of [update] calls, and the scale read before the first call
    and after each one. *)
Definition run (s : t) (calls : list bool) : t := fold_left update calls s.

Fixpoint scale_trace (s : t) (calls : list bool) : list Q :=
  _scale s ::
  match calls with
  | [] => []
  | b :: calls => scale_trace (update s b) calls
  end.

(** What the constructor checked, as a property of a running scaler. *)
Record valid (s : t) : Prop := {
  valid_min_pos : 0 < min_scale s;
  valid_min_le : min_scale s <= _scale s;
  valid_growth : 1 < growth_factor s;
  valid_backoff_lt : backoff_factor s < 1;
  valid_backoff_pos : 0 < backoff_factor s;
  valid_interval : (0 < growth_interval s)%Z;
  valid_hysteresis : (0 < hysteresis s)%Z
}.

End DynamicGradScaler.

(** ** The optimizer wrapper *)

Module FP16Optimizer.
Local Open Scope Q_scope.

(** The two strings [param.type()] is compared with. *)
Definition HalfTensor : string := "torch.cuda.HalfTensor".
Definition FloatTensor : string := "torch.cuda.FloatTensor".

(** The tensor kernels the wrapper calls.  They are collaborators, none of
    them is under src/, and the development is parametric in them.
    - [convert ty v]: the contents [v] after a cast to the tensor type named
      [ty] ([Tensor.float()], and [copy_] into a tensor of another type);
    - [div_]: in-place division of a buffer by the loss scale;
    - [zero_]: in-place zeroing;
    - [has_inf_or_nan]: [_utils.has_inf_or_nan], applied to [p.grad];
    - [clip_grad_norm_fp32]: from the gradients of the given parameters and
      the maximal norm, the clipped gradients and the norm;
    - [scale_by], [overflow_of]: the product and the flag computed by
      [colossal_C.multi_tensor_scale]; the source states that scaling with
      factor one is a copy, which is [scale_by_one]. *)
Class Kernels := {
  val : Type;
  attrs : Type;
  convert : string -> val -> val;
  div_ : val -> Q -> val;
  zero_ : val -> val;
  has_inf_or_nan : option val -> bool;
  clip_grad_norm_fp32 : list (option val) -> Q -> list (option val) * Q;
  scale_by : val -> Q -> val;
  overflow_of : list val -> Z;
  scale_by_one : forall v, scale_by v 1 = v
}.

Section Model.
Context {K : Kernels}.

(** A tensor object: what [type()] answers, [requires_grad], the contents
    [.data], [.grad] and the tensor-parallel attributes. *)
Record tensor := mk_tensor {
  type_ : string;
  requires_grad : bool;
  data : val;
  grad : option val;
  tp_attrs : option attrs
}.

Definition set_data (v : val) (p : tensor) : tensor :=
  mk_tensor (type_ p) (requires_grad p) v (grad p) (tp_attrs p).

Definition set_grad (g : option val) (p : tensor) : tensor :=
  mk_tensor (type_ p) (requires_grad p) (data p) g (tp_attrs p).

(** The store: tensors are addressed by their position, which stands for
    the identity of the Python object.  A new tensor goes to the end. *)
Local Abbreviation store := (list tensor).

Definition grad_of (st : store) (p : nat) : option val := st !! p ≫= grad.

(** [that_.copy_(this_)]: same type, same contents; otherwise a cast. *)
Definition copy_value (this_ that_ : tensor) : val :=
  if decide (type_ this_ = type_ that_) then data this_
  else convert (type_ that_) (data this_).

Definition copy_ (that_ this_ : nat) (st : store) : store :=
  match st !! this_ with
  | Some src => alter (fun dst => set_data (copy_value src dst) dst) that_ st
  | None => st
  end.

End Model.

Abbreviation store := (list tensor).

(** The wrapped optimizer, a collaborator: its parameter groups (the
    parameters of each with the group's hyperparameters), its per-parameter
    state keyed by the identity of the parameter, and
    - [step_data o st p], [step_state o st]: the contents that [step()] gives
      parameter [p], and the state it leaves, from the store before the call;
    - [opt_state_dict], [opt_load_state_dict]: saving and restoring its state;
      [None] stands for the ValueError of a checkpoint that does not fit. *)
Class BaseOptimizer {K : Kernels} := {
  hypers : Type;
  pstate : Type;
  osd : Type;
  step_data : list (list nat * hypers) -> gmap nat pstate -> store -> nat -> val;
  step_state : list (list nat * hypers) -> gmap nat pstate -> store -> gmap nat pstate;
  opt_state_dict : list (list nat * hypers) -> gmap nat pstate -> osd;
  opt_load_state_dict :
    store -> list (list nat * hypers) -> gmap nat pstate -> osd ->
    option (list (list nat * hypers) * gmap nat pstate)
}.

Section Wrapper.
Context {K : Kernels} {B : BaseOptimizer}.

(** One parameter group of the wrapped optimizer: [group['params']] and the
    other entries of the dictionary. *)
Local Abbreviation param_group := (list nat * hypers)%type.

Definition params (g : param_group) : list nat := fst g.

(** The wrapped optimizer object. *)
Record optimizer := mk_optimizer {
  param_groups : list param_group;
  state : gmap nat pstate
}.

(** A communication group, as the ranks of its members. *)
Local Abbreviation group := (list nat).

(** Modelled from the spec: the enumeration [ParallelMode] and the global
    context [gpc] are not under src/; the context resolves a role to the
    group of the calling process. *)
Inductive ParallelMode := GLOBAL | DATA | MODEL | PIPELINE | TENSOR.

Record context := mk_context {
  is_initialized : ParallelMode -> bool;
  get_world_size : ParallelMode -> nat;
  get_group : ParallelMode -> group
}.

(** The attributes of the wrapper.  [_found_overflow] and
    [_dummy_overflow_buf] are one-element tensors. *)
Record t := mk {
  _optimizer : optimizer;
  _grad_scaler : DynamicGradScaler.t;
  _found_overflow : Q;
  _dummy_overflow_buf : Z;
  _clip_grad_max_norm : Q;
  _dp_process_group : option group;
  _mp_process_group : option group;
  _fp16_param_groups : list (list nat);
  _fp32_master_param_groups : list (list nat);
  _fp32_param_groups : list (list nat)
}.

(** The calls a method makes to its collaborators, in order. *)
Inductive call :=
  | ScalerUpdate (found_inf : bool)
  | ZeroGrad
  | ClipGradNorm
  | OptimizerStep
  | CopyBack.

(** The exceptions of the model.  [NoSuchTensor] is raised for an identity
    outside the store, which no Python object has. *)
Inductive error :=
  | TypeError
  | AttributeError
  | ValueError
  | NoSuchTensor.

(** The process: the tensors, the wrapper, and the calls made so far. *)
Record world := mk_world {
  tensors : store;
  self : t;
  calls : list call
}.

(** *** Construction *)

(** The local function of [__init__]; it reads the data-parallel role
    whatever [parallel_mode] is. *)
Definition _get_process_group (gpc : context) (parallel_mode : ParallelMode)
    : option group :=
  if is_initialized gpc DATA && negb (Nat.eqb (get_world_size gpc DATA) 0)
  then Some (get_group gpc DATA)
  else None.

(** The state of the loop over one group: the store, [param_group['params']],
    [self._optimizer.state] and the three lists being filled. *)
Record conv := mk_conv {
  c_store : store;
  c_params : list nat;
  c_state : gmap nat pstate;
  fp16_params : list nat;
  fp32_master_params : list nat;
  fp32_params : list nat
}.

(** [param.detach().clone().float()], with the tensor-parallel attributes
    that [copy_tensor_parallel_attributes] puts on it. *)
Definition fp32_copy (param : tensor) : tensor :=
  {| type_ := FloatTensor;
     requires_grad := false;
     data := convert FloatTensor (data param);
     grad := None;
     tp_attrs := tp_attrs param |}.

(** [self._optimizer.state[fp32_param] = self._optimizer.state.pop(param)],
    when [param] is a key. *)
Definition rekey (param fp32_param : nat) (s : gmap nat pstate)
    : gmap nat pstate :=
  match s !! param with
  | Some x => <[fp32_param := x]> (delete param s)
  | None => s
  end.

(** The body of the loop [for i, param in enumerate(param_group['params'])]. *)
Definition convert_param (i param : nat) (c : conv) : error + conv :=
  match c_store c !! param with
  | None => inl NoSuchTensor
  | Some p =>
    if requires_grad p then
      if decide (type_ p = HalfTensor) then
        let fp32_param := length (c_store c) in
        inr {| c_store := c_store c ++ [fp32_copy p];
               c_params := <[i := fp32_param]> (c_params c);
               c_state := rekey param fp32_param (c_state c);
               fp16_params := fp16_params c ++ [param];
               fp32_master_params := fp32_master_params c ++ [fp32_param];
               fp32_params := fp32_params c |}
      else if decide (type_ p = FloatTensor) then
        inr {| c_store := c_store c;
               c_params := c_params c;
               c_state := c_state c;
               fp16_params := fp16_params c;
               fp32_master_params := fp32_master_params c;
               fp32_params := fp32_params c ++ [param] |}
      else inl TypeError
    else inr c
  end.

(** The loop, from position [i] on.  The list is only ever written at a
    position already visited, so the parameters still to visit are those
    the group had at the start. *)
Fixpoint convert_params (i : nat) (ps : list nat) (c : conv) : error + conv :=
  match ps with
  | [] => inr c
  | param :: ps =>
    match convert_param i param c with
    | inl e => inl e
    | inr c => convert_params (S i) ps c
    end
  end.

(** The state of the loop over the groups. *)
Record built := mk_built {
  b_store : store;
  b_groups : list param_group;
  b_state : gmap nat pstate;
  b_fp16 : list (list nat);
  b_master : list (list nat);
  b_fp32 : list (list nat)
}.

(** The loop [for param_group in self._optimizer.param_groups]; [done] are
    the groups already visited. *)
Fixpoint convert_groups (gs : list param_group) (b : built) : error + built :=
  match gs with
  | [] => inr b
  | g :: gs =>
    match convert_params 0 (params g)
            (mk_conv (b_store b) (params g) (b_state b) [] [] []) with
    | inl e => inl e
    | inr c =>
      convert_groups gs
        {| b_store := c_store c;
           b_groups := b_groups b ++ [(c_params c, snd g)];
           b_state := c_state c;
           b_fp16 := b_fp16 b ++ [fp16_params c];
           b_master := b_master b ++ [fp32_master_params c];
           b_fp32 := b_fp32 b ++ [fp32_params c] |}
    end
  end.

Definition or_else {A} (x : option A) (y : option A) : option A :=
  match x with Some _ => x | None => y end.

Definition __init__ (gpc : context) (st : store) (optimizer_ : optimizer)
    (grad_scaler : DynamicGradScaler.t) (clip_grad_norm : Q)
    (dp_process_group mp_process_group : option group) : error + world :=
  let dp_process_group :=
    or_else dp_process_group (_get_process_group gpc DATA) in
  let mp_process_group :=
    or_else mp_process_group (_get_process_group gpc MODEL) in
  match convert_groups (param_groups optimizer_)
          (mk_built st [] (state optimizer_) [] [] []) with
  | inl e => inl e
  | inr b =>
    match opt_load_state_dict (b_store b) (b_groups b) (b_state b)
            (opt_state_dict (b_groups b) (b_state b)) with
    | None => inl ValueError
    | Some (groups, state_) =>
      inr {| tensors := b_store b;
             self := {| _optimizer := mk_optimizer groups state_;
                        _grad_scaler := grad_scaler;
                        _found_overflow := 0;
                        _dummy_overflow_buf := 0;
                        _clip_grad_max_norm := clip_grad_norm;
                        _dp_process_group := dp_process_group;
                        _mp_process_group := mp_process_group;
                        _fp16_param_groups := b_fp16 b;
                        _fp32_master_param_groups := b_master b;
                        _fp32_param_groups := b_fp32 b |};
             calls := [] |}
    end
  end.

(** *** Gradients *)

(** A loop whose body may raise. *)
Fixpoint for_each {A S : Type} (f : A -> S -> error + S) (l : list A) (s : S)
    : error + S :=
  match l with
  | [] => inr s
  | x :: l =>
    match f x s with
    | inl e => inl e
    | inr s => for_each f l s
    end
  end.

(** Modelled from the spec: [_utils.zero_gard_by_list] is not under src/.
    With [set_to_none] the gradient of every listed parameter is released,
    otherwise a gradient that is there is zeroed. *)
Definition zero_gard_by_list (ps : list nat) (set_to_none : bool) (st : store)
    : store :=
  fold_left
    (fun st p =>
       alter (fun x => set_grad (if set_to_none then None
                                 else zero_ <$> grad x) x) p st)
    ps st.

Definition zero_grad (o : t) (set_to_none : bool) (st : store) : store :=
  fold_left (fun st g => zero_gard_by_list (params g) set_to_none st)
    (param_groups (_optimizer o)) st.

Definition loss_scale (o : t) : Q := DynamicGradScaler.scale (_grad_scaler o).

Definition _get_fp32_param_groups_to_update (o : t) : list (list nat) :=
  _fp32_master_param_groups o ++ _fp32_param_groups o.

Definition _unscale_grads (o : t) (st : store) : store :=
  fold_left
    (fun st g =>
       fold_left
         (fun st p =>
            alter (fun x => set_grad ((fun g => div_ g (loss_scale o)) <$> grad x) x)
              p st)
         g st)
    (_get_fp32_param_groups_to_update o) st.

(** [fp32_param.grad = fp16_param.grad.float()] raises AttributeError when
    the half parameter has no gradient; then [fp16_param.grad = None]. *)
Definition assign_grad (pr : nat * nat) (st : store) : error + store :=
  let '(fp16_param, fp32_param) := pr in
  match st !! fp16_param with
  | None => inl NoSuchTensor
  | Some p =>
    match grad p with
    | None => inl AttributeError
    | Some g =>
      inr (alter (set_grad None) fp16_param
             (alter (set_grad (Some (convert FloatTensor g))) fp32_param st))
    end
  end.

Definition _assign_grad_to_fp32_master_param (o : t) (st : store)
    : error + store :=
  for_each (fun gg st => for_each assign_grad (zip (fst gg) (snd gg)) st)
    (zip (_fp16_param_groups o) (_fp32_master_param_groups o)) st.

(** *** The overflow check *)

(** The inner loop with its [break]: whether a parameter of the group has a
    gradient with a non-finite entry. *)
Fixpoint scan_group (st : store) (ps : list nat) : bool :=
  match ps with
  | [] => false
  | p :: ps => if has_inf_or_nan (grad_of st p) then true else scan_group st ps
  end.

Definition scan_groups (st : store) (gs : list param_group) (found : Q) : Q :=
  fold_left (fun found g => if scan_group st (params g) then 1 else found)
    gs found.

(** [dist.all_reduce(x, op=MAX)]: the maximum of the own buffer and the
    buffers the other members of the group bring to the same collective. *)
Definition all_reduce_max (x : Q) (peers : list Q) : Q := fold_left Qmax peers x.

(** What the other members contribute to the two collectives of one check. *)
Record net := mk_net {
  dp_peers : list Q;
  mp_peers : list Q
}.

Definition reduce_over (pg : option group) (peers : list Q) (x : Q) : Q :=
  match pg with
  | Some _ => all_reduce_max x peers
  | None => x
  end.

Definition set_found_overflow (o : t) (x : Q) : t :=
  mk (_optimizer o) (_grad_scaler o) x (_dummy_overflow_buf o)
     (_clip_grad_max_norm o) (_dp_process_group o) (_mp_process_group o)
     (_fp16_param_groups o) (_fp32_master_param_groups o) (_fp32_param_groups o).

Definition _check_overflow (n : net) (o : t) (st : store) : bool * t :=
  let found := 0 in
  let found := scan_groups st (param_groups (_optimizer o)) found in
  let found := reduce_over (_dp_process_group o) (dp_peers n) found in
  let found := reduce_over (_mp_process_group o) (mp_peers n) found in
  (Qlt_bool 0 found, set_found_overflow o found).

(** *** The update *)

Definition all_params (o : optimizer) : list nat :=
  concat (map params (param_groups o)).

Definition write_grads (ps : list nat) (gs : list (option val)) (st : store)
    : store :=
  fold_left (fun st pg => alter (set_grad (snd pg)) (fst pg) st) (zip ps gs) st.

Definition clip_grad_norm (o : t) (clip_grad : Q) (st : store) : store * Q :=
  let ps := all_params (_optimizer o) in
  let '(gs, norm) := clip_grad_norm_fp32 (map (grad_of st) ps) clip_grad in
  (write_grads ps gs st, norm).

(** [self._optimizer.step()]: the update rule of the wrapped optimizer on
    the parameters registered with it. *)
Definition optimizer_step (o : optimizer) (st : store) : optimizer * store :=
  (mk_optimizer (param_groups o) (step_state (param_groups o) (state o) st),
   fold_left
     (fun s p => alter (set_data (step_data (param_groups o) (state o) st p)) p s)
     (all_params o) st).

(** The truth value of a one-element integer tensor, or of [None]. *)
Definition truthy (overflow_buf : option Z) : bool :=
  match overflow_buf with
  | Some b => negb (b =? 0)%Z
  | None => false
  end.

(** Modelled from the spec: [colossal_C.multi_tensor_scale] is not under
    src/.  Run by [multi_tensor_applier] on [[this, that]] with factor one,
    it writes to each tensor of [that] the product of its partner in [this]
    with the factor, cast to the type of the target. *)
Definition scale_to (this_ that_ : nat) (st : store) : store :=
  match st !! this_ with
  | Some src =>
    alter (fun dst =>
             set_data (copy_value (set_data (scale_by (data src) 1) src) dst) dst)
      that_ st
  | None => st
  end.

Definition _multi_tensor_copy_this_to_that (this that : list nat)
    (overflow_buf : option Z) (st : store) : store * option Z :=
  if truthy overflow_buf then
    (fold_left (fun st tt => scale_to (fst tt) (snd tt) st) (zip this that) st,
     Some (overflow_of (omap (fun p => data <$> st !! p) this)))
  else
    (fold_left (fun st tt => copy_ (snd tt) (fst tt) st) (zip this that) st,
     overflow_buf).

(** The pairs (half parameter, master) in the order of the two nested
    [zip]s. *)
Definition pairs (o : t) : list (nat * nat) :=
  concat (zip_with zip (_fp16_param_groups o) (_fp32_master_param_groups o)).

Definition set_dummy_overflow_buf (o : t) (b : Z) : t :=
  mk (_optimizer o) (_grad_scaler o) (_found_overflow o) b
     (_clip_grad_max_norm o) (_dp_process_group o) (_mp_process_group o)
     (_fp16_param_groups o) (_fp32_master_param_groups o) (_fp32_param_groups o).

Definition _update_fp16_param_from_fp32_param (o : t) (st : store) : t * store :=
  let fp16_param_data := map fst (pairs o) in
  let fp32_master_param_data := map snd (pairs o) in
  let '(st, buf) :=
    _multi_tensor_copy_this_to_that fp32_master_param_data fp16_param_data
      (Some (_dummy_overflow_buf o)) st in
  (set_dummy_overflow_buf o (default (_dummy_overflow_buf o) buf), st).

Definition set_grad_scaler (o : t) (s : DynamicGradScaler.t) : t :=
  mk (_optimizer o) s (_found_overflow o) (_dummy_overflow_buf o)
     (_clip_grad_max_norm o) (_dp_process_group o) (_mp_process_group o)
     (_fp16_param_groups o) (_fp32_master_param_groups o) (_fp32_param_groups o).

Definition set_optimizer (o : t) (b : optimizer) : t :=
  mk b (_grad_scaler o) (_found_overflow o) (_dummy_overflow_buf o)
     (_clip_grad_max_norm o) (_dp_process_group o) (_mp_process_group o)
     (_fp16_param_groups o) (_fp32_master_param_groups o) (_fp32_param_groups o).

(** [step()]: the pair it returns and the process it leaves. *)
Definition step (n : net) (w : world) : error + ((bool * option Q) * world) :=
  match _assign_grad_to_fp32_master_param (self w) (tensors w) with
  | inl e => inl e
  | inr st =>
    let st := _unscale_grads (self w) st in
    let '(overflow, o) := _check_overflow n (self w) st in
    let o := set_grad_scaler o (DynamicGradScaler.update (_grad_scaler o) overflow) in
    let log := calls w ++ [ScalerUpdate overflow] in
    if overflow then
      let st := zero_grad o true st in
      inr ((false, None), mk_world st o (log ++ [ZeroGrad]))
    else
      let '(st, grad_norm, log) :=
        if Qlt_bool 0 (_clip_grad_max_norm o) then
          let '(st, norm) := clip_grad_norm o (_clip_grad_max_norm o) st in
          (st, Some norm, log ++ [ClipGradNorm])
        else (st, None, log) in
      let '(b, st) := optimizer_step (_optimizer o) st in
      let o := set_optimizer o b in
      let '(o, st) := _update_fp16_param_from_fp32_param o st in
      inr ((true, grad_norm), mk_world st o (log ++ [OptimizerStep; CopyBack]))
  end.

(** *** Checkpoints *)

(** The dictionary of [state_dict()]; the two keys [load_state_dict] looks
    for may be absent.  The master groups are the lists of the wrapper
    themselves, not copies. *)
Record checkpoint := mk_checkpoint {
  ck_optimizer : osd;
  ck_grad_scaler : option DynamicGradScaler.state;
  ck_fp32_master_param_groups : option (list (list nat))
}.

Definition state_dict (o : t) : checkpoint :=
  {| ck_optimizer :=
       opt_state_dict (param_groups (_optimizer o)) (state (_optimizer o));
     ck_grad_scaler := Some (DynamicGradScaler.state_dict (_grad_scaler o));
     ck_fp32_master_param_groups := Some (_fp32_master_param_groups o) |}.

Definition copy_groups (current ckpt : list (list nat)) (st : store) : store :=
  fold_left
    (fun st gg =>
       fold_left (fun st pp => copy_ (fst pp) (snd pp) st)
         (zip (fst gg) (snd gg)) st)
    (zip current ckpt) st.

Definition load_state_dict (d : checkpoint) (w : world) : error + world :=
  let o := self w in
  match opt_load_state_dict (tensors w) (param_groups (_optimizer o))
          (state (_optimizer o)) (ck_optimizer d) with
  | None => inl ValueError
  | Some (groups, state_) =>
    let o := set_optimizer o (mk_optimizer groups state_) in
    let o :=
      match ck_grad_scaler d with
      | Some sd =>
        set_grad_scaler o (DynamicGradScaler.load_state_dict (_grad_scaler o) sd)
      | None => o
      end in
    let st :=
      match ck_fp32_master_param_groups d with
      | Some ckpt => copy_groups (_fp32_master_param_groups o) ckpt (tensors w)
      | None => tensors w
      end in
    inr (mk_world st o (calls w))
  end.

(** *** Several processes in lockstep *)

(** The overflow check run by every rank at once: [handles r] are the two
    groups rank [r] holds, [locals] the result of each rank's own scan.
    Each collective gives a rank the buffers of the other members of its
    group. *)
Definition peers_of (pg : option group) (r : nat) (flags : list Q) : list Q :=
  match pg with
  | Some g => omap (fun m => flags !! m) (filter (fun m => m <> r) g)
  | None => []
  end.

Definition reduce_all (handle : nat -> option group) (flags : list Q) : list Q :=
  imap (fun r x => reduce_over (handle r) (peers_of (handle r) r flags) x) flags.

Definition check_all (dp mp : nat -> option group) (locals : list bool)
    : list bool :=
  let flags := map (fun b : bool => if b then 1 else 0) locals in
  let flags := reduce_all dp flags in
  let flags := reduce_all mp flags in
  map (Qlt_bool 0) flags.

(** *** Predicates used in the statements *)

(** How the loop of [__init__] sees a parameter of the store it starts
    from. *)
Definition trainable_half (st : store) (p : nat) : bool :=
  match st !! p with
  | Some x => requires_grad x && bool_decide (type_ x = HalfTensor)
  | None => false
  end.

Definition trainable_float (st : store) (p : nat) : bool :=
  match st !! p with
  | Some x =>
    requires_grad x && negb (bool_decide (type_ x = HalfTensor))
    && bool_decide (type_ x = FloatTensor)
  | None => false
  end.

Definition frozen (st : store) (p : nat) : bool :=
  match st !! p with
  | Some x => negb (requires_grad x)
  | None => false
  end.

(** A parameter of half type, trainable or not. *)
Definition half_entry (st : store) (p : nat) : bool :=
  match st !! p with
  | Some x => bool_decide (type_ x = HalfTensor)
  | None => false
  end.

(** A parameter that does not make the loop raise. *)
Definition accepted (st : store) (p : nat) : bool :=
  match st !! p with
  | Some x =>
    negb (requires_grad x) || bool_decide (type_ x = HalfTensor)
    || bool_decide (type_ x = FloatTensor)
  | None => false
  end.

(** Two tensors that differ at most in the gradient, where a released
    gradient stays released. *)
Definition grad_only (x y : tensor) : Prop :=
  type_ y = type_ x /\ requires_grad y = requires_grad x /\
  data y = data x /\ tp_attrs y = tp_attrs x.

Definition grad_only_none (x y : tensor) : Prop :=
  grad_only x y /\ (grad x = None -> grad y = None).

(** Two tensors that differ at most in the contents. *)
Definition data_only (x y : tensor) : Prop :=
  type_ y = type_ x /\ requires_grad y = requires_grad x /\
  grad y = grad x /\ tp_attrs y = tp_attrs x.

(** Two tensors of the same type. *)
Definition same_type (x y : tensor) : Prop := type_ y = type_ x.

(** The re-keying of the state of the wrapped optimizer, for a list of
    pairs (parameter, master) in order. *)
Definition rekeys (prs : list (nat * nat)) (s : gmap nat pstate)
    : gmap nat pstate :=
  fold_left (fun s pm => rekey (fst pm) (snd pm) s) prs s.

(** The pairing of the wrapper: the half parameters are distinct tensors of
    half type, their masters are tensors of float type, and no tensor is
    both. *)
Record paired (w : world) : Prop := {
  paired_nodup : NoDup (map fst (pairs (self w)));
  paired_disjoint :
    forall p, p ∈ map fst (pairs (self w)) -> p ∉ map snd (pairs (self w));
  paired_half :
    forall p, p ∈ map fst (pairs (self w)) ->
      exists x, tensors w !! p = Some x /\ type_ x = HalfTensor;
  paired_float :
    forall p, p ∈ map snd (pairs (self w)) ->
      exists x, tensors w !! p = Some x /\ type_ x = FloatTensor
}.

End Wrapper.

Abbreviation param_group := (list nat * hypers)%type.
Abbreviation group := (list nat).

(** *** An instance to run the model on *)

(** Buffers of one entry: a rational, or [None] for an entry that is not
    finite.  The cast to half keeps the integer part, every other cast
    keeps the value. *)
Definition demo_convert (ty : string) (v : option Q) : option Q :=
  if decide (ty = HalfTensor) then (fun q => inject_Z (Qfloor q)) <$> v else v.

Definition demo_has_inf_or_nan (g : option (option Q)) : bool :=
  match g with
  | Some None => true
  | _ => false
  end.

Definition demo_scale_by (v : option Q) (f : Q) : option Q :=
  if Qeq_bool f 1 then v else (fun q => q * f) <$> v.

Definition demo_overflow_of (l : list (option Q)) : Z :=
  if existsb (fun v => demo_has_inf_or_nan (Some v)) l then 1 else 0.

Definition demo_kernels : Kernels :=
  {| val := option Q;
     attrs := unit;
     convert := demo_convert;
     div_ := fun v s => (fun q => q / s) <$> v;
     zero_ := fun _ => Some 0;
     has_inf_or_nan := demo_has_inf_or_nan;
     clip_grad_norm_fp32 := fun gs _ => (gs, 0);
     scale_by := demo_scale_by;
     overflow_of := demo_overflow_of;
     scale_by_one := fun v => eq_refl |}.

(** A wrapped optimizer without state that subtracts the gradient. *)
Definition demo_step_data (gs : list (list nat * unit)) (s : gmap nat unit)
    (st : list (@tensor demo_kernels)) (p : nat) : option Q :=
  match st !! p with
  | Some x =>
    match data x, grad x with
    | Some d, Some (Some g) => Some (d - g)
    | d, _ => d
    end
  | None => None
  end.

Definition demo_optimizer : @BaseOptimizer demo_kernels :=
  {| hypers := unit;
     pstate := unit;
     osd := list (list nat * unit) * gmap nat unit;
     step_data := demo_step_data;
     step_state := fun _ s _ => s;
     opt_state_dict := fun gs s => (gs, s);
     opt_load_state_dict := fun _ _ _ d => Some d |}.

#[local] Existing Instance demo_kernels.
#[local] Existing Instance demo_optimizer.

Definition BFloat16Tensor : string := "torch.cuda.BFloat16Tensor".

(** A trainable half parameter and a trainable float parameter, both with a
    gradient, and a frozen bf16 parameter; [demo_store_inf] has a gradient
    that is not finite on the half parameter. *)
Definition demo_store : list (@tensor demo_kernels) :=
  [ mk_tensor HalfTensor true (Some (7#2)) (Some (Some 8)) None;
    mk_tensor FloatTensor true (Some (1#2)) (Some (Some 4)) None;
    mk_tensor BFloat16Tensor false (Some 1) None None ].

Definition demo_store_inf : list (@tensor demo_kernels) :=
  [ mk_tensor HalfTensor true (Some (7#2)) (Some None) None;
    mk_tensor FloatTensor true (Some (1#2)) (Some (Some 4)) None;
    mk_tensor BFloat16Tensor false (Some 1) None None ].

(** One trainable bf16 parameter. *)
Definition demo_store_bf16 : list (@tensor demo_kernels) :=
  [ mk_tensor BFloat16Tensor true (Some 1) None None ].

(** One group with the three parameters. *)
Definition demo_base : optimizer := mk_optimizer [([0; 1; 2]%nat, tt)] ∅.

Definition demo_base_bf16 : optimizer := mk_optimizer [([0]%nat, tt)] ∅.

Definition demo_scaler : DynamicGradScaler.t :=
  DynamicGradScaler.mk 8 1 2 (1#2) 2 1 None 0 1.

(** A context in which no role is initialised. *)
Definition demo_context : context :=
  mk_context (fun _ => false) (fun _ => 0%nat) (fun _ => []).

(** The wrapper that the constructor builds on [st]: the master of
    parameter 0 is tensor 3. *)
Definition demo_world_on (st : list (@tensor demo_kernels)) : world :=
  {| tensors :=
       st ++ [mk_tensor FloatTensor false (Some (7#2)) None None];
     self :=
       {| _optimizer := mk_optimizer [([3; 1; 2]%nat, tt)] ∅;
          _grad_scaler := demo_scaler;
          _found_overflow := 0;
          _dummy_overflow_buf := 0;
          _clip_grad_max_norm := 0;
          _dp_process_group := None;
          _mp_process_group := None;
          _fp16_param_groups := [[0%nat]];
          _fp32_master_param_groups := [[3%nat]];
          _fp32_param_groups := [[1%nat]] |};
     calls := [] |}.

Definition demo_world : world := demo_world_on demo_store.
Definition demo_world_inf : world := demo_world_on demo_store_inf.

(** The half parameter has no gradient. *)
Definition demo_store_nograd : list (@tensor demo_kernels) :=
  [ mk_tensor HalfTensor true (Some (7#2)) None None;
    mk_tensor FloatTensor true (Some (1#2)) (Some (Some 4)) None;
    mk_tensor BFloat16Tensor false (Some 1) None None ].

Definition demo_world_nograd : world := demo_world_on demo_store_nograd.

(** The wrapped optimizer holds state for the half parameter and for the
    float parameter. *)
Definition demo_base_state : optimizer :=
  mk_optimizer [([0; 1; 2]%nat, tt)] (<[0%nat := tt]> (<[1%nat := tt]> ∅)).

(** The wrapper of [demo_world] when it holds a data-parallel group of two
    processes. *)
Definition demo_world_peer : world :=
  {| tensors := tensors demo_world;
     self :=
       {| _optimizer := mk_optimizer [([3; 1; 2]%nat, tt)] ∅;
          _grad_scaler := demo_scaler;
          _found_overflow := 0;
          _dummy_overflow_buf := 0;
          _clip_grad_max_norm := 0;
          _dp_process_group := Some [0; 1]%nat;
          _mp_process_group := None;
          _fp16_param_groups := [[0%nat]];
          _fp32_master_param_groups := [[3%nat]];
          _fp32_param_groups := [[1%nat]] |};
     calls := [] |}.

(** One trainable half parameter, for comparison with [demo_store_bf16]. *)
Definition demo_store_half : list (@tensor demo_kernels) :=
  [ mk_tensor HalfTensor true (Some 1) None None ].

(** A trainable half parameter and a frozen one, in one group. *)
Definition demo_store_frozen_half : list (@tensor demo_kernels) :=
  [ mk_tensor HalfTensor true (Some (7#2)) (Some (Some 8)) None;
    mk_tensor HalfTensor false (Some (5#2)) None None ].

Definition demo_base_frozen_half : optimizer :=
  mk_optimizer [([0; 1]%nat, tt)] ∅.

(** [demo_world] next to a tensor that holds the master of a checkpoint
    read from a file, and that checkpoint. *)
Definition demo_world_ckpt : world :=
  {| tensors :=
       tensors demo_world ++ [mk_tensor FloatTensor false (Some 9) None None];
     self := self demo_world;
     calls := [] |}.

Definition demo_checkpoint : checkpoint :=
  {| ck_optimizer := ([([3; 1; 2]%nat, tt)], ∅);
     ck_grad_scaler := Some (DynamicGradScaler.mk_state None 4 1 1);
     ck_fp32_master_param_groups := Some [[4%nat]] |}.

(** Two processes: each is alone in its data-parallel group, both form the
    model-parallel group. *)
Definition rank_context (r : nat) : context :=
  mk_context (fun _ => true)
    (fun m => match m with MODEL => 2%nat | _ => 1%nat end)
    (fun m => match m with MODEL => [0; 1]%nat | _ => [r] end).

End FP16Optimizer.

(** * Properties of the loss-scale state machine *)

Section ScalerFacts.
Import DynamicGradScaler.
Local Open Scope Q_scope.

Lemma Qlt_bool_iff (a b : Q) : Qlt_bool a b = true <-> a < b.
Proof.
  unfold Qlt_bool. rewrite negb_true_iff. split.
  - intros H. apply Qnot_le_lt. intros Hle.
    apply Qle_bool_iff in Hle. congruence.
  - intros H. destruct (Qle_bool b a) eqn:E; [|reflexivity].
    apply Qle_bool_iff in E. exfalso. apply (Qlt_not_le _ _ H E).
Qed.

(** The constructor accepts exactly the valid configurations, and starts
    them with the growth tracker at zero and a full hysteresis budget. *)
Lemma init_valid i m g b gi h mx s :
  __init__ i m g b gi h mx = Some s ->
  valid s /\ _scale s = i /\ _growth_tracker s = 0%Z /\
  _hysteresis_tracker s = h /\ hysteresis s = h /\ _max_scale s = mx /\
  match mx with Some x => 1 < x /\ i <= x | None => True end.
Proof.
  unfold __init__.
  destruct (Qlt_bool 0 i) eqn:E1; simpl; [|discriminate].
  destruct (Qlt_bool 0 m) eqn:E2; simpl; [|discriminate].
  destruct (Qle_bool m i) eqn:E3; simpl; [|discriminate].
  destruct (Qlt_bool 1 g) eqn:E4; simpl; [|discriminate].
  destruct (Qlt_bool b 1) eqn:E5; simpl; [|discriminate].
  destruct (Qlt_bool 0 b) eqn:E6; simpl; [|discriminate].
  destruct (0 <? gi)%Z eqn:E7; simpl; [|discriminate].
  destruct (0 <? h)%Z eqn:E8; simpl; [|discriminate].
  apply Qlt_bool_iff in E1, E2, E4, E5, E6. apply Qle_bool_iff in E3.
  apply Z.ltb_lt in E7, E8.
  destruct mx as [x|].
  - destruct (Qlt_bool 1 x) eqn:E9; simpl; [|discriminate].
    destruct (Qle_bool i x) eqn:E10; simpl; [|discriminate].
    apply Qlt_bool_iff in E9. apply Qle_bool_iff in E10.
    intros [= <-]. simpl. repeat split; assumption.
  - intros [= <-]. simpl. repeat split; assumption.
Qed.

(** [update] keeps the configuration. *)
Lemma update_config s b :
  min_scale (update s b) = min_scale s /\
  growth_factor (update s b) = growth_factor s /\
  backoff_factor (update s b) = backoff_factor s /\
  growth_interval (update s b) = growth_interval s /\
  hysteresis (update s b) = hysteresis s /\
  _max_scale (update s b) = _max_scale s.
Proof.
  unfold update, reached_max. destruct b; simpl;
    repeat match goal with
           | |- context [if ?c then _ else _] => destruct c; simpl
           | |- context [match ?c with Some _ => _ | None => _ end] =>
               destruct c; simpl
           end; repeat split.
Qed.

(** One call keeps the scale at or above [min_scale]. *)
Lemma update_valid s b : valid s -> valid (update s b).
Proof.
  intros [Hm Hle Hg Hb1 Hb0 Hi Hh].
  destruct (update_config s b) as (E1 & E2 & E3 & E4 & E5 & _).
  split; rewrite ?E1, ?E2, ?E3, ?E4, ?E5; try assumption.
  unfold update. destruct b; simpl.
  - destruct (_hysteresis_tracker s - 1 <=? 0)%Z; simpl; [|assumption].
    apply Q.le_max_r.
  - destruct (_growth_tracker s + 1 =? growth_interval s)%Z; simpl;
      [|assumption].
    unfold reached_max; simpl.
    destruct (_max_scale s) as [m|]; simpl.
    + destruct (Qle_bool m (_scale s)); simpl; [assumption|].
      nra.
    + nra.
Qed.

Lemma run_valid calls s : valid s -> valid (run s calls).
Proof.
  unfold run. revert s. induction calls as [|b calls IH]; intros s Hs; simpl.
  - assumption.
  - apply IH, update_valid, Hs.
Qed.

Lemma run_min_scale calls s : min_scale (run s calls) = min_scale s.
Proof.
  unfold run. revert s. induction calls as [|b calls IH]; intros s; simpl.
  - reflexivity.
  - rewrite IH. apply update_config.
Qed.

(** The lower half of the bound: after every sequence of calls on a valid
    scaler, [min_scale <= scale]. *)
Lemma scale_lower_bound s calls :
  valid s -> min_scale s <= _scale (run s calls).
Proof.
  intros Hs. rewrite <- (run_min_scale calls s).
  apply valid_min_le, run_valid, Hs.
Qed.

Lemma run_snoc s calls b : run s (calls ++ [b]) = update (run s calls) b.
Proof. unfold run. rewrite fold_left_app. reflexivity. Qed.

Lemma repeat_snoc {A} (x : A) k : repeat x (S k) = repeat x k ++ [x].
Proof. induction k as [|k IH]; simpl in *; [reflexivity | now rewrite <- IH]. Qed.

(** Fewer overflows than the hysteresis tracker allows: only the trackers
    move. *)
Lemma overflows_below_budget k s :
  (Z.of_nat k < _hysteresis_tracker s)%Z ->
  exists g,
    run s (repeat true k) =
    set_hysteresis_tracker (set_growth_tracker s g)
      (_hysteresis_tracker s - Z.of_nat k).
Proof.
  induction k as [|k IH]; intros Hk.
  - exists (_growth_tracker s). destruct s; unfold set_hysteresis_tracker,
      set_growth_tracker; simpl. f_equal. lia.
  - destruct IH as [g Hg]; [lia|].
    rewrite repeat_snoc, run_snoc, Hg. exists 0%Z.
    unfold update; simpl.
    destruct (_hysteresis_tracker s - Z.of_nat k - 1 <=? 0)%Z eqn:E.
    + apply Z.leb_le in E. lia.
    + unfold set_hysteresis_tracker, set_growth_tracker; simpl. f_equal. lia.
Qed.

(** Fewer clean calls than it takes the growth tracker to reach the
    interval: only the growth tracker moves. *)
Lemma clean_calls_below_interval k s :
  (_growth_tracker s + Z.of_nat k < growth_interval s)%Z ->
  run s (repeat false k) =
  set_growth_tracker s (_growth_tracker s + Z.of_nat k).
Proof.
  induction k as [|k IH]; intros Hk.
  - destruct s; unfold set_growth_tracker; simpl. f_equal. lia.
  - rewrite repeat_snoc, run_snoc, IH by lia.
    unfold update; simpl.
    destruct (_growth_tracker s + Z.of_nat k + 1 =? growth_interval s)%Z eqn:E.
    + apply Z.eqb_eq in E. lia.
    + unfold set_growth_tracker; simpl. f_equal. lia.
Qed.

(** What the code does on a run of clean calls that starts with the growth
    tracker at zero: the scale moves at the call that completes the interval
    and not before; there it is multiplied by the growth factor unless it
    has already reached [max_scale], and the trackers are reset. *)
Lemma growth_at_interval s :
  _growth_tracker s = 0%Z -> (0 < growth_interval s)%Z ->
  let n := Z.to_nat (growth_interval s) in
  (forall k, (k < n)%nat -> _scale (run s (repeat false k)) = _scale s) /\
  _growth_tracker (run s (repeat false n)) = 0%Z /\
  _hysteresis_tracker (run s (repeat false n)) = hysteresis s /\
  _scale (run s (repeat false n)) =
    if reached_max s then _scale s else _scale s * growth_factor s.
Proof.
  intros Hg Hi n. split.
  - intros k Hk. rewrite clean_calls_below_interval by lia. reflexivity.
  - destruct n as [|m] eqn:En; [lia|].
    rewrite repeat_snoc, run_snoc, clean_calls_below_interval by lia.
    unfold update; simpl.
    destruct (_growth_tracker s + Z.of_nat m + 1 =? growth_interval s)%Z eqn:E.
    + unfold reached_max; simpl.
      destruct (_max_scale s) as [x|]; simpl; [|repeat split].
      destruct (Qle_bool x (_scale s)); simpl; repeat split.
    + apply Z.eqb_neq in E. lia.
Qed.

(** C3, at an input where the bound fails.  The configuration
    [initial_scale = 8], [min_scale = 1], [growth_factor = 2],
    [backoff_factor = 1/2], [growth_interval = 1], [hysteresis = 1],
    [max_scale = 10] passes every check of the constructor, and one
    [update(False)] takes the scale to 16: the scale is above [max_scale]
    after that call.  (The lower bound [min_scale <= scale] holds after
    every call, see [scale_lower_bound].) *)
Theorem scale_exceeds_max_scale :
  exists s,
    __init__ 8 1 2 (1#2) 1 1 (Some 10) = Some s /\
    valid s /\
    _max_scale (update s false) = Some 10 /\
    _scale (update s false) == 16 /\
    ~ (_scale (update s false) <= 10).
Proof.
  eexists. split; [reflexivity|].
  split; [split; simpl; reflexivity || (intro; discriminate)|].
  split; [reflexivity|]. split; [reflexivity|].
  vm_compute. intros H. apply H. reflexivity.
Qed.

(** C4, as the code runs it.  With [initial_scale = 8], [growth_factor = 2],
    [backoff_factor = 1/2], [growth_interval = 2], [hysteresis = 1],
    [min_scale = 1] and no [max_scale], the calls [update(False)],
    [update(False)], [update(True)], [update(False)], [update(False)] give
    the scales 8, 8, 16, 8, 8, 16: the last two clean calls complete a
    growth interval again. *)
Theorem scenario_scale_trace :
  exists s,
    __init__ 8 1 2 (1#2) 2 1 None = Some s /\
    Forall2 Qeq (scale_trace s [false; false; true; false; false])
      [8; 8; 16; 8; 8; 16].
Proof.
  eexists. split; [reflexivity|].
  simpl. repeat constructor.
Qed.

(** C4 as stated does not hold: the trace does not end in 8. *)
Lemma scenario_scale_trace_does_not_end_in_8 :
  ~ (exists s,
       __init__ 8 1 2 (1#2) 2 1 None = Some s /\
       Forall2 Qeq (scale_trace s [false; false; true; false; false])
         [8; 8; 16; 8; 8; 8]).
Proof.
  intros (s & Hs & H). vm_compute in Hs. injection Hs as <-.
  pose proof (Forall2_lookup_lr _ _ _ 5 _ _ H eq_refl eq_refl) as H5.
  vm_compute in H5. discriminate.
Qed.

(** C5, as the code runs it.  From a fresh hysteresis budget [h >= 1], the
    first [h - 1] consecutive [update(True)] calls leave the scale as it
    is, and the [h]-th sets it to [max(scale * backoff_factor, min_scale)],
    the factor and the bound being the numbers the scaler holds; on a valid
    scaler that is never above the old scale.  Nothing is said on whether
    the new scale is below the old one: the arithmetic of the model is
    exact, and in single precision a product with a factor next to one can
    round back to the old scale. *)
Theorem backoff_at_hth_overflow s :
  valid s ->
  _hysteresis_tracker s = hysteresis s ->
  let h := Z.to_nat (hysteresis s) in
  (forall k, (k < h)%nat -> _scale (run s (repeat true k)) = _scale s) /\
  _scale (run s (repeat true h)) =
    Qmax (_scale s * backoff_factor s) (min_scale s) /\
  _scale (run s (repeat true h)) <= _scale s.
Proof.
  intros Hv Ht h.
  pose proof (valid_hysteresis s Hv) as Hh.
  assert (Hcut : _scale (run s (repeat true h)) =
                 Qmax (_scale s * backoff_factor s) (min_scale s)).
  { destruct h as [|m] eqn:Eh; [lia|].
    destruct (overflows_below_budget m s) as [g Hg]; [lia|].
    rewrite repeat_snoc, run_snoc, Hg. unfold update; simpl.
    destruct (_hysteresis_tracker s - Z.of_nat m - 1 <=? 0)%Z eqn:E.
    - reflexivity.
    - apply Z.leb_gt in E. lia. }
  split; [|split; [exact Hcut|]].
  - intros k Hk. destruct (overflows_below_budget k s) as [g Hg]; [lia|].
    rewrite Hg. reflexivity.
  - rewrite Hcut. destruct Hv as [Hm Hle Hg Hb1 Hb0 _ _].
    apply Q.max_lub; [nra | assumption].
Qed.

Lemma backoff_at_hth_overflow_witness :
  let s := mk 8 1 2 (1#2) 2 3 None 0 3 in
  (forall k, (k < 3)%nat -> _scale (run s (repeat true k)) = 8) /\
  _scale (run s (repeat true 3)) = Qmax (8 * (1#2)) 1 /\
  _scale (run s (repeat true 3)) <= 8.
Proof.
  apply (backoff_at_hth_overflow (mk 8 1 2 (1#2) 2 3 None 0 3)).
  - split; simpl; reflexivity || (intro; discriminate).
  - reflexivity.
Defined.

(** C5 as stated does not hold: with [hysteresis = 1] the first
    [update(True)] already cuts the scale from 8 to 4. *)
Lemma first_overflow_cuts_when_hysteresis_is_1 :
  ~ (forall s,
       valid s -> _hysteresis_tracker s = hysteresis s ->
       let h := Z.to_nat (hysteresis s) in
       (forall k, (k <= h)%nat -> _scale (run s (repeat true k)) == _scale s) /\
       _scale (run s (repeat true (S h))) ==
         Qmax (_scale s * backoff_factor s) (min_scale s)).
Proof.
  intros H.
  destruct (H (mk 8 1 2 (1#2) 2 1 None 0 1)) as [H1 _].
  - split; simpl; reflexivity || (intro; discriminate).
  - reflexivity.
  - specialize (H1 1%nat (Nat.le_refl _)). vm_compute in H1. discriminate.
Qed.

(** C6, at an input where the cap fails.  With [initial_scale = 8],
    [growth_factor = 2], [growth_interval = 2] and [max_scale = 10], two
    clean calls from a zero growth tracker take the scale to 16, not to the
    cap 10; the first call leaves the scale alone and the trackers are reset
    as stated. *)
Theorem growth_is_not_capped_at_max_scale :
  exists s,
    __init__ 8 1 2 (1#2) 2 1 (Some 10) = Some s /\
    _growth_tracker s = 0%Z /\
    _scale (run s [false]) == 8 /\
    _scale (run s [false; false]) == 16 /\
    _growth_tracker (run s [false; false]) = 0%Z /\
    _hysteresis_tracker (run s [false; false]) = hysteresis s /\
    ~ (_scale (run s [false; false]) == Qmin (_scale s * growth_factor s) 10).
Proof.
  eexists. split; [reflexivity|].
  repeat (split; [reflexivity|]).
  vm_compute. discriminate.
Qed.

End ScalerFacts.

(** * Properties of the optimizer wrapper *)

Section WrapperFacts.
Import FP16Optimizer.
Context {K : Kernels} {B : BaseOptimizer}.
Implicit Types (st : store) (p : nat) (o : t) (w : world).

#[local] Instance grad_only_refl : Reflexive grad_only.
Proof. intros x. repeat split. Qed.

#[local] Instance grad_only_trans : Transitive grad_only.
Proof. intros x y z (?&?&?&?) (?&?&?&?). repeat split; congruence. Qed.

#[local] Instance grad_only_none_refl : Reflexive grad_only_none.
Proof. intros x. split; [reflexivity | auto]. Qed.

#[local] Instance grad_only_none_trans : Transitive grad_only_none.
Proof. intros x y z [H1 H2] [H3 H4]. split; [etransitivity; eauto | auto]. Qed.

#[local] Instance data_only_refl : Reflexive data_only.
Proof. intros x. repeat split. Qed.

#[local] Instance data_only_trans : Transitive data_only.
Proof. intros x y z (?&?&?&?) (?&?&?&?). repeat split; congruence. Qed.

Lemma Forall2_refl_list {A} (R : relation A) `{!Reflexive R} (l : list A) :
  Forall2 R l l.
Proof. induction l; constructor; auto. Qed.

Lemma Forall2_trans_list {A} (R : relation A) `{!Transitive R} (l1 l2 l3 : list A) :
  Forall2 R l1 l2 -> Forall2 R l2 l3 -> Forall2 R l1 l3.
Proof.
  intros H. revert l3. induction H; intros l3 H3; inversion H3; subst;
    constructor; eauto.
Qed.

Lemma Forall2_alter_same {A} (R : relation A) `{!Reflexive R} (f : A -> A) i
    (l : list A) :
  (forall x, l !! i = Some x -> R x (f x)) -> Forall2 R l (alter f i l).
Proof.
  revert i. induction l as [|a l IH]; intros i Hf; [constructor|].
  destruct i as [|i]; simpl; constructor; auto.
  - apply Forall2_refl_list; auto.
  - apply IH. intros x Hx. apply Hf. exact Hx.
Qed.

(** A loop of in-place updates, each related to what it finds. *)
Lemma fold_alter_Forall2 {A} (R : relation tensor)
    `{!Reflexive R} `{!Transitive R}
    (F : A -> store -> tensor -> tensor) (key : A -> nat) (l : list A) st :
  (forall a s x, R x (F a s x)) ->
  Forall2 R st (fold_left (fun s a => alter (F a s) (key a) s) l st).
Proof.
  intros HF. revert st. induction l as [|a l IH]; intros st; simpl.
  - apply Forall2_refl_list; auto.
  - eapply Forall2_trans_list; [auto| |apply IH].
    apply Forall2_alter_same; auto.
Qed.

Lemma fold_left_concat {A S} (f : S -> A -> S) (ls : list (list A)) (s : S) :
  fold_left (fun s l => fold_left f l s) ls s = fold_left f (concat ls) s.
Proof.
  revert s. induction ls as [|l ls IH]; intros s; simpl; [reflexivity|].
  rewrite fold_left_app. apply IH.
Qed.

Lemma fold_left_map {A A' S} (f : S -> A' -> S) (h : A -> A') (l : list A) (s : S) :
  fold_left (fun s a => f s (h a)) l s = fold_left f (map h l) s.
Proof. revert s. induction l; intros s; simpl; auto. Qed.

(** Reading the store after a relation that keeps the contents. *)
Lemma Forall2_lookup_data (R : relation tensor) st st' :
  (forall x y, R x y -> data y = data x) ->
  Forall2 R st st' -> forall p, data <$> st' !! p = data <$> st !! p.
Proof.
  intros HR H p.
  destruct (st !! p) as [x|] eqn:E.
  - destruct (Forall2_lookup_l _ _ _ _ _ H E) as (y & -> & Hxy).
    simpl. f_equal. auto.
  - apply lookup_ge_None in E. rewrite (Forall2_length _ _ _ H) in E.
    apply lookup_ge_None in E. rewrite E. reflexivity.
Qed.

Lemma Forall2_grad_none st st' p :
  Forall2 grad_only_none st st' -> grad_of st p = None -> grad_of st' p = None.
Proof.
  intros H. unfold grad_of.
  destruct (st' !! p) as [y|] eqn:E; [|reflexivity].
  destruct (Forall2_lookup_r _ _ _ _ _ H E) as (x & -> & Hxy).
  simpl. apply Hxy.
Qed.

Lemma grad_of_alter (f : tensor -> tensor) a st p :
  grad_of (alter f a st) p =
  if decide (a = p) then st !! p ≫= (fun x => grad (f x)) else grad_of st p.
Proof.
  unfold grad_of. rewrite list_lookup_alter.
  destruct (decide (a = p)) as [->|]; [|reflexivity].
  destruct (st !! p); reflexivity.
Qed.

(** [zero_gard_by_list] with [set_to_none]: the listed parameters lose their
    gradient, the others keep theirs. *)
Lemma zero_gard_by_list_none ps st p :
  grad_of (zero_gard_by_list ps true st) p =
  if decide (p ∈ ps) then None else grad_of st p.
Proof.
  unfold zero_gard_by_list. revert st.
  induction ps as [|a ps IH]; intros st; simpl.
  - destruct (decide (p ∈ [])) as [H|]; [|reflexivity].
    inversion H.
  - rewrite IH. destruct (decide (p ∈ ps)) as [Hin|Hout].
    + rewrite decide_True by (right; exact Hin). reflexivity.
    + rewrite grad_of_alter. destruct (decide (a = p)) as [->|Hne].
      * rewrite decide_True by left. destruct (st !! p); reflexivity.
      * rewrite decide_False; [reflexivity|].
        intros H. inversion H; subst; contradiction.
Qed.

Lemma zero_gard_by_list_frame ps b st :
  Forall2 grad_only_none st (zero_gard_by_list ps b st).
Proof.
  unfold zero_gard_by_list.
  apply (fold_alter_Forall2 grad_only_none
           (fun _ _ x => set_grad (if b then None else zero_ <$> grad x) x)
           (fun p => p)).
  intros _ _ x. split; [repeat split|].
  simpl. intros ->. destruct b; reflexivity.
Qed.


Lemma zero_grad_flat o b st :
  zero_grad o b st = zero_gard_by_list (all_params (_optimizer o)) b st.
Proof.
  unfold zero_grad, zero_gard_by_list, all_params.
  rewrite <- fold_left_concat.
  rewrite <- (fold_left_map
                (fun s (l : list nat) => fold_left _ l s) params).
  reflexivity.
Qed.

Lemma unscale_grads_frame o st :
  Forall2 grad_only_none st (_unscale_grads o st).
Proof.
  unfold _unscale_grads. rewrite fold_left_concat.
  apply (fold_alter_Forall2 grad_only_none
           (fun _ _ x => set_grad ((fun g => div_ g (loss_scale o)) <$> grad x) x)
           (fun p => p)).
  intros _ _ x. split; [repeat split|].
  simpl. intros ->. reflexivity.
Qed.

Lemma for_each_app {A S} (f : A -> S -> error + S) (l1 l2 : list A) (s : S) :
  for_each f (l1 ++ l2) s =
  match for_each f l1 s with
  | inl e => inl e
  | inr s' => for_each f l2 s'
  end.
Proof.
  revert s. induction l1 as [|a l1 IH]; intros s; simpl; [reflexivity|].
  destruct (f a s); [reflexivity | apply IH].
Qed.

(** The two nested loops of [_assign_grad_to_fp32_master_param] visit the
    pairs in order. *)
Lemma assign_grad_flat o st :
  _assign_grad_to_fp32_master_param o st = for_each assign_grad (pairs o) st.
Proof.
  unfold _assign_grad_to_fp32_master_param, pairs.
  generalize (_fp16_param_groups o) (_fp32_master_param_groups o).
  intros l k. revert k st.
  induction l as [|a l IH]; intros [|b k] st; simpl; try reflexivity.
  rewrite for_each_app.
  destruct (for_each assign_grad (zip a b) st); [reflexivity | apply IH].
Qed.

Lemma assign_grad_frame pr st st' :
  assign_grad pr st = inr st' -> Forall2 grad_only st st'.
Proof.
  destruct pr as [a m]. unfold assign_grad.
  destruct (st !! a) as [x|]; [|discriminate].
  destruct (grad x) as [g|]; [|discriminate].
  intros [= <-].
  eapply Forall2_trans_list; [apply grad_only_trans| |];
    apply Forall2_alter_same; try apply grad_only_refl;
    intros y _; repeat split.
Qed.

Lemma assigns_frame prs st st' :
  for_each assign_grad prs st = inr st' -> Forall2 grad_only st st'.
Proof.
  revert st. induction prs as [|pr prs IH]; intros st; simpl.
  - intros [= <-]. apply Forall2_refl_list, grad_only_refl.
  - destruct (assign_grad pr st) as [e|st1] eqn:E; [discriminate|].
    intros H. eapply Forall2_trans_list; [apply grad_only_trans| |apply IH, H].
    eapply assign_grad_frame, E.
Qed.

(** A released gradient stays released while no later pair names the tensor
    as a master. *)
Lemma assigns_keep_none prs st st' a :
  for_each assign_grad prs st = inr st' ->
  a ∉ map snd prs -> grad_of st a = None -> grad_of st' a = None.
Proof.
  revert st. induction prs as [|[b m] prs IH]; intros st; simpl.
  - intros [= <-] _ H. exact H.
  - destruct (st !! b) as [x|] eqn:Eb; [|discriminate].
    destruct (grad x) as [g|] eqn:Eg; [|discriminate].
    intros H Hout Hnone. apply (IH _ H).
    + intros Hin. apply Hout. right. exact Hin.
    + rewrite grad_of_alter. destruct (decide (b = a)) as [->|_].
      * destruct (alter _ m st !! a); reflexivity.
      * rewrite grad_of_alter. destruct (decide (m = a)) as [->|_]; [|exact Hnone].
        exfalso. apply Hout. left.
Qed.

(** When the loop returns, it has released the gradient of every half
    parameter that is not itself a master. *)
Lemma assigns_release prs st st' p :
  for_each assign_grad prs st = inr st' ->
  p ∈ map fst prs -> p ∉ map snd prs -> grad_of st' p = None.
Proof.
  revert st. induction prs as [|[a m] prs IH]; intros st H Hp Hout; simpl in *.
  - inversion Hp.
  - destruct (st !! a) as [x|] eqn:Ea; [|discriminate].
    destruct (grad x) as [g|] eqn:Eg; [|discriminate].
    assert (Hout' : p ∉ map snd prs) by (intros Hin; apply Hout; right; exact Hin).
    apply elem_of_cons in Hp as [->|Hp].
    + apply (assigns_keep_none _ _ _ _ H Hout').
      rewrite grad_of_alter, decide_True by reflexivity.
      destruct (alter _ m st !! a); reflexivity.
    + apply (IH _ H Hp Hout').
Qed.

(** When the half parameters are distinct and each holds a gradient, the
    loop does not raise, and it releases the gradient of every half
    parameter that is not itself a master. *)
Lemma assigns_ok prs st :
  NoDup (map fst prs) ->
  (forall p, p ∈ map fst prs ->
     exists x g, st !! p = Some x /\ grad x = Some g) ->
  exists st',
    for_each assign_grad prs st = inr st' /\
    forall p, p ∈ map fst prs -> p ∉ map snd prs -> grad_of st' p = None.
Proof.
  revert st. induction prs as [|[a m] prs IH]; intros st Hnd Hg; simpl.
  - exists st. split; [reflexivity|]. intros p Hp. inversion Hp.
  - simpl in Hnd. apply NoDup_cons in Hnd as [Ha Hnd].
    destruct (Hg a) as (x & g & Hx & Hgx); [left|].
    rewrite Hx, Hgx.
    set (st1 := alter (set_grad None) a
                  (alter (set_grad (Some (convert FloatTensor g))) m st)).
    destruct (IH st1 Hnd) as (st' & Hst' & Hnone).
    { intros p Hp. destruct (Hg p) as (y & gy & Hy & Hgy); [right; exact Hp|].
      assert (a <> p) by (intros ->; contradiction).
      unfold st1. rewrite list_lookup_alter_ne by assumption.
      rewrite list_lookup_alter. destruct (decide (m = p)) as [->|_].
      - rewrite Hy. simpl. eexists _, _. split; [reflexivity|]. reflexivity.
      - eauto. }
    exists st'. split; [exact Hst'|].
    intros p Hp Hout. simpl in Hp, Hout.
    apply elem_of_cons in Hp as [->|Hp].
    + apply (assigns_keep_none _ _ _ _ Hst').
      * intros Hin. apply Hout. right. exact Hin.
      * unfold st1. rewrite grad_of_alter, decide_True by reflexivity.
        destruct (alter _ m st !! a); reflexivity.
    + apply Hnone; [exact Hp|]. intros Hin. apply Hout. right. exact Hin.
Qed.

(** ** The overflow flag *)

Lemma scan_group_true st ps :
  scan_group st ps = true <->
  exists p, p ∈ ps /\ has_inf_or_nan (grad_of st p) = true.
Proof.
  induction ps as [|a ps IH]; simpl.
  - split; [discriminate | intros (p & Hp & _); inversion Hp].
  - destruct (has_inf_or_nan (grad_of st a)) eqn:E.
    + split; [|reflexivity]. intros _. exists a. split; [left | exact E].
    + rewrite IH. split.
      * intros (p & Hp & H). exists p. split; [right; exact Hp | exact H].
      * intros (p & Hp & H). apply elem_of_cons in Hp as [->|Hp]; [congruence|].
        eauto.
Qed.

Lemma scan_groups_pos st (gs : list param_group) found :
  (0 <= found)%Q ->
  (0 < scan_groups st gs found)%Q <->
  (0 < found)%Q \/
  exists p, p ∈ concat (map params gs) /\ has_inf_or_nan (grad_of st p) = true.
Proof.
  unfold scan_groups. revert found.
  induction gs as [|g gs IH]; intros found Hf; simpl.
  - split; [auto|]. intros [H|(p & Hp & _)]; [exact H | inversion Hp].
  - destruct (scan_group st (params g)) eqn:E.
    + rewrite IH by (intro; discriminate). split; [|intros _; left; reflexivity].
      intros _. right. apply scan_group_true in E as (p & Hp & H).
      exists p. split; [apply elem_of_app; left; exact Hp | exact H].
    + rewrite IH by exact Hf. split.
      * intros [H|(p & Hp & H)]; [left; exact H|].
        right. exists p. split; [apply elem_of_app; right; exact Hp | exact H].
      * intros [H|(p & Hp & H)]; [left; exact H|].
        apply elem_of_app in Hp as [Hp|Hp].
        -- assert (scan_group st (params g) = true)
             by (apply scan_group_true; eauto). congruence.
        -- right. eauto.
Qed.

Lemma scan_groups_nonneg st (gs : list param_group) found :
  (0 <= found)%Q -> (0 <= scan_groups st gs found)%Q.
Proof.
  unfold scan_groups. revert found.
  induction gs as [|g gs IH]; intros found Hf; simpl; [exact Hf|].
  apply IH. destruct (scan_group st (params g)); [intro; discriminate | exact Hf].
Qed.

Lemma all_reduce_max_pos x peers :
  (0 < all_reduce_max x peers)%Q <-> (0 < x)%Q \/ exists y, y ∈ peers /\ (0 < y)%Q.
Proof.
  unfold all_reduce_max. revert x.
  induction peers as [|y peers IH]; intros x; simpl.
  - split; [auto|]. intros [H|(y & Hy & _)]; [exact H | inversion Hy].
  - rewrite IH, Q.max_lt_iff. split.
    + intros [[H|H]|(z & Hz & H)]; [left; exact H | |].
      * right. exists y. split; [left | exact H].
      * right. exists z. split; [right; exact Hz | exact H].
    + intros [H|(z & Hz & H)]; [left; left; exact H|].
      apply elem_of_cons in Hz as [->|Hz]; [left; right; exact H|].
      right. eauto.
Qed.

Lemma reduce_over_pos (pg : option group) peers x :
  (0 < reduce_over pg peers x)%Q <->
  (0 < x)%Q \/ (is_Some pg /\ exists y, y ∈ peers /\ (0 < y)%Q).
Proof.
  destruct pg as [g|]; simpl.
  - rewrite all_reduce_max_pos. split.
    + intros [H|H]; [left; exact H | right; split; [eauto | exact H]].
    + intros [H|[_ H]]; [left; exact H | right; exact H].
  - split; [auto|]. intros [H|[[g Hg] _]]; [exact H | discriminate].
Qed.

Lemma check_overflow_true n o st :
  fst (_check_overflow n o st) = true <->
  (exists p, p ∈ all_params (_optimizer o) /\
             has_inf_or_nan (grad_of st p) = true) \/
  (is_Some (_dp_process_group o) /\ exists y, y ∈ dp_peers n /\ (0 < y)%Q) \/
  (is_Some (_mp_process_group o) /\ exists y, y ∈ mp_peers n /\ (0 < y)%Q).
Proof.
  unfold _check_overflow. cbn [fst].
  rewrite Qlt_bool_iff, !reduce_over_pos, scan_groups_pos by (intro; discriminate).
  unfold all_params. split.
  - intros [[[H|H]|H]|H]; [inversion H | auto | auto | auto].
  - intros [H|[H|H]]; auto.
Qed.


Lemma write_grads_frame ps gs st : Forall2 grad_only st (write_grads ps gs st).
Proof.
  unfold write_grads.
  apply (fold_alter_Forall2 grad_only
           (fun (pg : nat * option val) _ => set_grad (snd pg)) fst).
  intros pg _ x. repeat split.
Qed.

Lemma clip_grad_norm_frame o c st :
  Forall2 grad_only st (fst (clip_grad_norm o c st)).
Proof.
  unfold clip_grad_norm.
  destruct (clip_grad_norm_fp32 _ c) as [gs norm]. simpl.
  apply write_grads_frame.
Qed.

Lemma optimizer_step_frame (b : optimizer) st :
  Forall2 data_only st (snd (optimizer_step b st)).
Proof.
  unfold optimizer_step; simpl.
  apply (fold_alter_Forall2 data_only
           (fun p _ => set_data (step_data (param_groups b) (state b) st p))
           (fun p => p)).
  intros p _ x. repeat split.
Qed.

(** A call of [step()] in which the gradients were handed to the masters:
    what is called, and what an overflow leaves. *)
Lemma step_after_assign n w st :
  _assign_grad_to_fp32_master_param (self w) (tensors w) = inr st ->
  exists res w',
    step n w = inr (res, w') /\
    let overflow :=
      fst (_check_overflow n (self w) (_unscale_grads (self w) st)) in
    (exists rest,
       calls w' = calls w ++ ScalerUpdate overflow :: rest /\
       forall b, ScalerUpdate b ∉ rest) /\
    _grad_scaler (self w') =
      DynamicGradScaler.update (_grad_scaler (self w)) overflow /\
    (overflow = true ->
       res = (false, None) /\
       calls w' = calls w ++ [ScalerUpdate true; ZeroGrad] /\
       _optimizer (self w') = _optimizer (self w) /\
       length (tensors w') = length (tensors w) /\
       (forall p, data <$> tensors w' !! p = data <$> tensors w !! p) /\
       (forall p, p ∈ all_params (_optimizer (self w)) ->
          grad_of (tensors w') p = None) /\
       (forall p, p ∈ map fst (pairs (self w)) ->
          p ∉ map snd (pairs (self w)) -> grad_of (tensors w') p = None)).
Proof.
  intros Hst.
  assert (Hnone : forall p, p ∈ map fst (pairs (self w)) ->
                    p ∉ map snd (pairs (self w)) -> grad_of st p = None).
  { intros p. apply (assigns_release (pairs (self w)) (tensors w)).
    rewrite <- assign_grad_flat. exact Hst. }
  pose proof (unscale_grads_frame (self w) st) as Hun.
  assert (Hfr : Forall2 grad_only (tensors w) st).
  { apply assigns_frame with (prs := pairs (self w)).
    rewrite <- assign_grad_flat. exact Hst. }
  unfold step. rewrite Hst.
  unfold _check_overflow. cbn [fst].
  set (found := reduce_over _ _ (reduce_over _ _ _)).
  destruct (Qlt_bool 0 found) eqn:Ef; cbn zeta iota beta.
  - (* overflow *)
    eexists _, _. split; [reflexivity|].
    cbn [calls self tensors _grad_scaler set_grad_scaler set_found_overflow
         _optimizer fst].
    split; [|split; [reflexivity|]].
    { exists [ZeroGrad]. split.
      - rewrite <- app_assoc. reflexivity.
      - intros b Hb. apply elem_of_cons in Hb as [Hb|Hb]; [discriminate|].
        inversion Hb. }
    intros _.
    set (o' := set_grad_scaler _ _).
    pose proof (zero_gard_by_list_frame (all_params (_optimizer o')) true
                  (_unscale_grads (self w) st)) as Hz.
    rewrite <- zero_grad_flat in Hz.
    split; [reflexivity|]. split; [rewrite <- app_assoc; reflexivity|].
    split; [reflexivity|].
    assert (Hall : Forall2 grad_only (tensors w) (zero_grad o' true (_unscale_grads (self w) st))).
    { eapply Forall2_trans_list; [apply grad_only_trans|exact Hfr|].
      eapply Forall2_trans_list; [apply grad_only_trans| |].
      - eapply Forall2_impl; [exact Hun|]. intros x y [H _]. exact H.
      - eapply Forall2_impl; [exact Hz|]. intros x y [H _]. exact H. }
    split; [symmetry; eapply Forall2_length, Hall|].
    split.
    { apply (Forall2_lookup_data grad_only); [|exact Hall].
      intros x y (_ & _ & H & _). exact H. }
    split.
    + intros p Hp. rewrite zero_grad_flat, zero_gard_by_list_none.
      rewrite decide_True; [reflexivity | exact Hp].
    + intros p Hp Hout.
      eapply Forall2_grad_none; [exact Hz|].
      eapply Forall2_grad_none; [exact Hun|].
      apply Hnone; assumption.
  - (* no overflow *)
    destruct (Qlt_bool 0 (_clip_grad_max_norm _)) eqn:Ec.
    + destruct (clip_grad_norm _ _ _) as [st3 norm] eqn:E3.
      cbn zeta iota beta.
      destruct (optimizer_step _ st3) as [b4 st4] eqn:E4.
      destruct (_update_fp16_param_from_fp32_param _ st4) as [o5 st5] eqn:E5.
      eexists _, _. split; [reflexivity|].
      cbn [calls self tensors fst].
      split; [|split; [|discriminate]].
      * exists [ClipGradNorm; OptimizerStep; CopyBack]. split.
        -- rewrite <- !app_assoc. reflexivity.
        -- intros b Hb. repeat (apply elem_of_cons in Hb as [Hb|Hb]; [discriminate|]).
           inversion Hb.
      * unfold _update_fp16_param_from_fp32_param in E5.
        destruct (_multi_tensor_copy_this_to_that _ _ _ st4) as [st6 buf].
        injection E5 as <- <-. reflexivity.
    + destruct (optimizer_step _ _) as [b4 st4] eqn:E4.
      destruct (_update_fp16_param_from_fp32_param _ st4) as [o5 st5] eqn:E5.
      eexists _, _. split; [reflexivity|].
      cbn [calls self tensors fst].
      split; [|split; [|discriminate]].
      * exists [OptimizerStep; CopyBack]. split.
        -- rewrite <- !app_assoc. reflexivity.
        -- intros b Hb. repeat (apply elem_of_cons in Hb as [Hb|Hb]; [discriminate|]).
           inversion Hb.
      * unfold _update_fp16_param_from_fp32_param in E5.
        destruct (_multi_tensor_copy_this_to_that _ _ _ st4) as [st6 buf].
        injection E5 as <- <-. reflexivity.
Qed.

(** C1, for the calls that do not raise.  A call of [step()] returns
    whenever the half parameters of the wrapper are distinct tensors that
    each hold a gradient, so that the gradients can be handed to the masters
    (a half parameter without gradient makes the call raise AttributeError
    before the scaler is reached).  Every call that returns has called
    [scaler.update] once, and the scaler it leaves is the old one after that
    single update.  The flag of that call is the one agreed through the two
    reductions: it is true exactly when, after the gradients were handed
    over and unscaled, a parameter of the wrapped optimizer has a gradient
    on which [has_inf_or_nan] answers true, or the wrapper holds a
    data-parallel group and a member brings a positive flag to the maximum
    taken over it, or the wrapper holds a model-parallel group and a member
    brings a positive flag to the maximum taken over that one.  When the
    flag is true the only other call is [zero_grad]: the wrapped optimizer
    is not stepped and nothing is copied back, the result is
    [(False, None)], the wrapped optimizer and the contents of every tensor
    are what they were, and no parameter of the wrapped optimizer and no
    half parameter is left with a gradient. *)
Theorem step_updates_scaler_once_and_skips_on_overflow n w :
  (NoDup (map fst (pairs (self w))) ->
   (forall p, p ∈ map fst (pairs (self w)) ->
      exists x g, tensors w !! p = Some x /\ grad x = Some g) ->
   exists res w', step n w = inr (res, w')) /\
  forall res w', step n w = inr (res, w') ->
    exists st overflow,
      _assign_grad_to_fp32_master_param (self w) (tensors w) = inr st /\
      (overflow = true <->
         (exists p, p ∈ all_params (_optimizer (self w)) /\
            has_inf_or_nan (grad_of (_unscale_grads (self w) st) p) = true) \/
         (is_Some (_dp_process_group (self w)) /\
          exists y, y ∈ dp_peers n /\ (0 < y)%Q) \/
         (is_Some (_mp_process_group (self w)) /\
          exists y, y ∈ mp_peers n /\ (0 < y)%Q)) /\
      (exists rest,
         calls w' = calls w ++ ScalerUpdate overflow :: rest /\
         forall b, ScalerUpdate b ∉ rest) /\
      _grad_scaler (self w') =
        DynamicGradScaler.update (_grad_scaler (self w)) overflow /\
      (overflow = true ->
         res = (false, None) /\
         calls w' = calls w ++ [ScalerUpdate true; ZeroGrad] /\
         _optimizer (self w') = _optimizer (self w) /\
         length (tensors w') = length (tensors w) /\
         (forall p, data <$> tensors w' !! p = data <$> tensors w !! p) /\
         (forall p, p ∈ all_params (_optimizer (self w)) ->
            grad_of (tensors w') p = None) /\
         (forall p, p ∈ map fst (pairs (self w)) ->
            p ∉ map snd (pairs (self w)) -> grad_of (tensors w') p = None)).
Proof.
  split.
  - intros Hnd Hg.
    destruct (assigns_ok (pairs (self w)) (tensors w) Hnd Hg) as (st & Hst & _).
    rewrite <- assign_grad_flat in Hst.
    destruct (step_after_assign n w st Hst) as (res & w' & Hstep & _).
    eauto.
  - intros res w' Hstep.
    destruct (_assign_grad_to_fp32_master_param (self w) (tensors w))
      as [e|st] eqn:Hst.
    { unfold step in Hstep. rewrite Hst in Hstep. discriminate. }
    destruct (step_after_assign n w st Hst) as (res0 & w0 & Hstep0 & H).
    rewrite Hstep in Hstep0. injection Hstep0 as <- <-.
    exists st, (fst (_check_overflow n (self w) (_unscale_grads (self w) st))).
    split; [reflexivity|].
    split; [apply check_overflow_true | exact H].
Qed.

(** ** The copy back *)

#[local] Instance same_type_refl : Reflexive same_type.
Proof. intros x. reflexivity. Qed.

#[local] Instance same_type_trans : Transitive same_type.
Proof. intros x y z H1 H2. unfold same_type in *. congruence. Qed.

Lemma grad_only_same_type st st' :
  Forall2 grad_only st st' -> Forall2 same_type st st'.
Proof. intros H0. eapply Forall2_impl; [exact H0|]. intros x y (H & _). exact H. Qed.

Lemma grad_only_none_same_type st st' :
  Forall2 grad_only_none st st' -> Forall2 same_type st st'.
Proof. intros H0. eapply Forall2_impl; [exact H0|]. intros x y ((H & _) & _). exact H. Qed.

Lemma data_only_same_type st st' :
  Forall2 data_only st st' -> Forall2 same_type st st'.
Proof. intros H0. eapply Forall2_impl; [exact H0|]. intros x y (H & _). exact H. Qed.

Lemma same_type_lookup st st' p x ty :
  Forall2 same_type st st' -> st !! p = Some x -> type_ x = ty ->
  exists y, st' !! p = Some y /\ type_ y = ty.
Proof.
  intros H Hx Hty.
  destruct (Forall2_lookup_l _ _ _ _ _ H Hx) as (y & Hy & Hxy).
  exists y. split; [exact Hy|]. unfold same_type in Hxy. congruence.
Qed.

(** The batched kernel with factor one writes what [copy_] writes. *)
Lemma scale_to_copy this_ that_ st : scale_to this_ that_ st = copy_ that_ this_ st.
Proof.
  unfold scale_to, copy_. destruct (st !! this_) as [src|]; [|reflexivity].
  rewrite scale_by_one. reflexivity.
Qed.

Lemma fold_copy_swap (prs : list (nat * nat)) st :
  fold_left (fun st tt => copy_ (snd tt) (fst tt) st)
    (zip (map snd prs) (map fst prs)) st =
  fold_left (fun st pr => copy_ (fst pr) (snd pr) st) prs st.
Proof.
  revert st. induction prs as [|[a m] prs IH]; intros st; simpl; [reflexivity|].
  apply IH.
Qed.

(** Both branches of [_multi_tensor_copy_this_to_that] leave the same
    store. *)
Lemma multi_tensor_copy_store (prs : list (nat * nat)) buf st :
  fst (_multi_tensor_copy_this_to_that (map snd prs) (map fst prs) buf st) =
  fold_left (fun st pr => copy_ (fst pr) (snd pr) st) prs st.
Proof.
  unfold _multi_tensor_copy_this_to_that.
  destruct (truthy buf); cbn [fst].
  - rewrite <- fold_copy_swap.
    generalize (zip (map snd prs) (map fst prs)). intros l.
    revert st. induction l as [|tt l IH]; intros st; simpl; [reflexivity|].
    rewrite scale_to_copy. apply IH.
  - apply fold_copy_swap.
Qed.

Lemma copy_lookup_ne that_ this_ st q :
  q <> that_ -> copy_ that_ this_ st !! q = st !! q.
Proof.
  intros Hq. unfold copy_. destruct (st !! this_); [|reflexivity].
  apply list_lookup_alter_ne. congruence.
Qed.

Lemma copy_frame that_ this_ st : Forall2 data_only st (copy_ that_ this_ st).
Proof.
  unfold copy_. destruct (st !! this_) as [src|].
  - apply Forall2_alter_same; [apply data_only_refl|].
    intros x _. repeat split.
  - apply Forall2_refl_list, data_only_refl.
Qed.

Lemma copies_lookup_ne (prs : list (nat * nat)) st q :
  q ∉ map fst prs ->
  fold_left (fun st pr => copy_ (fst pr) (snd pr) st) prs st !! q = st !! q.
Proof.
  revert st. induction prs as [|[a m] prs IH]; intros st Hq; simpl; [reflexivity|].
  rewrite IH.
  - apply copy_lookup_ne. intros ->. apply Hq. left.
  - intros H. apply Hq. right. exact H.
Qed.

Lemma copies_frame (prs : list (nat * nat)) st :
  Forall2 data_only st
    (fold_left (fun st pr => copy_ (fst pr) (snd pr) st) prs st).
Proof.
  revert st. induction prs as [|[a m] prs IH]; intros st; simpl.
  - apply Forall2_refl_list, data_only_refl.
  - eapply Forall2_trans_list; [apply data_only_trans|apply copy_frame|apply IH].
Qed.

(** After the loop of copies, a half parameter holds what [copy_] makes of
    the contents of its master, and the master is untouched. *)
Lemma copies_pair (prs : list (nat * nat)) st a m xa xm :
  NoDup (map fst prs) ->
  (forall p, p ∈ map fst prs -> p ∉ map snd prs) ->
  (a, m) ∈ prs ->
  st !! a = Some xa -> st !! m = Some xm ->
  let st' := fold_left (fun st pr => copy_ (fst pr) (snd pr) st) prs st in
  st' !! a = Some (set_data (copy_value xm xa) xa) /\ st' !! m = Some xm.
Proof.
  intros Hnd Hdis Hin Ha Hm st'.
  assert (Hm' : st' !! m = Some xm).
  { unfold st'. rewrite copies_lookup_ne; [exact Hm|].
    intros H. assert (Hs : m ∈ map snd prs).
    { apply list_elem_of_In, in_map_iff. exists (a, m). split; [reflexivity|].
      apply list_elem_of_In. exact Hin. }
    exact (Hdis m H Hs). }
  split; [|exact Hm'].
  unfold st'. clear st' Hm'. revert st Ha Hm.
  induction prs as [|[a0 m0] prs IH]; intros st Ha Hm; [inversion Hin|].
  simpl in Hnd. apply NoDup_cons in Hnd as [Ha0 Hnd]. simpl.
  assert (Hdis' : forall p, p ∈ map fst prs -> p ∉ map snd prs).
  { intros p Hp Hs. apply (Hdis p); right; assumption. }
  apply elem_of_cons in Hin as [[= <- <-]|Hin].
  - rewrite copies_lookup_ne by exact Ha0.
    unfold copy_. rewrite Hm, list_lookup_alter_eq, Ha. reflexivity.
  - assert (Hne : a <> a0).
    { intros ->. apply Ha0. apply list_elem_of_In, in_map_iff.
      exists (a0, m). split; [reflexivity|]. apply list_elem_of_In. exact Hin. }
    assert (Hne' : m <> a0).
    { intros ->. apply (Hdis a0); [left|]. right.
      apply list_elem_of_In, in_map_iff.
      exists (a, a0). split; [reflexivity|]. apply list_elem_of_In. exact Hin. }
    apply IH; try assumption.
    + rewrite copy_lookup_ne by exact Hne. exact Ha.
    + rewrite copy_lookup_ne by exact Hne'. exact Hm.
Qed.

(** The pairs of the wrapper, by position. *)
Lemma pairs_lookup o g i G16 G32 a m :
  _fp16_param_groups o !! g = Some G16 ->
  _fp32_master_param_groups o !! g = Some G32 ->
  G16 !! i = Some a -> G32 !! i = Some m ->
  (a, m) ∈ pairs o.
Proof.
  intros H16 H32 Ha Hm. unfold pairs.
  apply list_elem_of_In, in_concat. exists (zip G16 G32). split.
  - apply list_elem_of_In, list_elem_of_lookup. exists g.
    rewrite lookup_zip_with, H16. simpl. rewrite H32. reflexivity.
  - apply list_elem_of_In, list_elem_of_lookup. exists i.
    rewrite lookup_zip_with, Ha. simpl. rewrite Hm. reflexivity.
Qed.

(** ** Construction *)

Lemma accepted_lookup st p : accepted st p = true -> exists x, st !! p = Some x.
Proof. unfold accepted. destruct (st !! p) as [x|]; [eauto | discriminate]. Qed.

(** The body of the loop, by the kind of the parameter in the store the
    construction started from. *)
Lemma convert_param_half st ext i p (c : conv) x :
  c_store c = st ++ ext -> st !! p = Some x -> trainable_half st p = true ->
  convert_param i p c =
  inr {| c_store := c_store c ++ [fp32_copy x];
         c_params := <[i := length (c_store c)]> (c_params c);
         c_state := rekey p (length (c_store c)) (c_state c);
         fp16_params := fp16_params c ++ [p];
         fp32_master_params := fp32_master_params c ++ [length (c_store c)];
         fp32_params := fp32_params c |}.
Proof.
  intros Hc Hx Hh. unfold convert_param.
  rewrite Hc, lookup_app_l by (eapply lookup_lt_Some, Hx). rewrite Hx.
  unfold trainable_half in Hh. rewrite Hx in Hh.
  apply andb_true_iff in Hh as [-> Hty]. apply bool_decide_eq_true in Hty.
  rewrite decide_True by exact Hty. reflexivity.
Qed.

Lemma convert_param_other st ext i p (c : conv) :
  c_store c = st ++ ext -> accepted st p = true -> trainable_half st p = false ->
  convert_param i p c =
  inr (if trainable_float st p
       then {| c_store := c_store c;
               c_params := c_params c;
               c_state := c_state c;
               fp16_params := fp16_params c;
               fp32_master_params := fp32_master_params c;
               fp32_params := fp32_params c ++ [p] |}
       else c).
Proof.
  intros Hc Ha Hh. destruct (accepted_lookup _ _ Ha) as [x Hx].
  unfold convert_param.
  rewrite Hc, lookup_app_l by (eapply lookup_lt_Some, Hx). rewrite Hx.
  unfold trainable_half in Hh. unfold accepted in Ha. unfold trainable_float.
  rewrite Hx in *.
  destruct (requires_grad x); simpl in *; [|reflexivity].
  destruct (decide (type_ x = HalfTensor)) as [Hty|Hty].
  - rewrite bool_decide_eq_true_2 in Hh by exact Hty. discriminate.
  - rewrite bool_decide_eq_false_2 by exact Hty.
    rewrite bool_decide_eq_false_2 in Ha by exact Hty. simpl in *.
    apply bool_decide_eq_true in Ha.
    rewrite decide_True by exact Ha.
    rewrite bool_decide_eq_true_2 by exact Ha. reflexivity.
Qed.

Lemma convert_param_rejected st ext i p (c : conv) x :
  c_store c = st ++ ext -> st !! p = Some x -> accepted st p = false ->
  convert_param i p c = inl TypeError.
Proof.
  intros Hc Hx Ha. unfold convert_param.
  rewrite Hc, lookup_app_l by (eapply lookup_lt_Some, Hx). rewrite Hx.
  unfold accepted in Ha. rewrite Hx in Ha.
  destruct (requires_grad x); simpl in Ha; [|discriminate].
  apply orb_false_iff in Ha as [H1 H2].
  apply bool_decide_eq_false in H1, H2.
  rewrite !decide_False by assumption. reflexivity.
Qed.

Lemma trainable_half_not_float st p :
  trainable_half st p = true -> trainable_float st p = false.
Proof.
  unfold trainable_half, trainable_float. destruct (st !! p) as [x|]; [|reflexivity].
  intros H. apply andb_true_iff in H as [-> ->]. reflexivity.
Qed.

Lemma filter_take_lookup {A} (f : A -> bool) (l : list A) k x :
  l !! k = Some x -> f x = true ->
  List.filter f l !! length (List.filter f (take k l)) = Some x.
Proof.
  intros Hk Hf.
  assert (E : List.filter f l =
              List.filter f (take k l) ++ x :: List.filter f (drop (S k) l)).
  { rewrite <- (take_drop_middle l k x Hk) at 1.
    rewrite List.filter_app. simpl. rewrite Hf. reflexivity. }
  rewrite E, lookup_app_r by lia. rewrite Nat.sub_diag. reflexivity.
Qed.

(** The loop over one group, on parameters that are all accepted.  [H] are
    the trainable half parameters of the part still to visit: each gets a
    clone at the end of the store, in order, and its slot of the group is
    overwritten with the clone; every other slot is left as it is. *)
Lemma convert_params_ok st ps :
  forall i (c : conv) ext,
  c_store c = st ++ ext ->
  Forall (fun p => accepted st p = true) ps ->
  i + length ps <= length (c_params c) ->
  let H := List.filter (trainable_half st) ps in
  exists c' ext',
    convert_params i ps c = inr c' /\
    c_store c' = c_store c ++ ext' /\
    length ext' = length H /\
    (forall j p, H !! j = Some p -> ext' !! j = fp32_copy <$> st !! p) /\
    fp16_params c' = fp16_params c ++ H /\
    fp32_master_params c' =
      fp32_master_params c ++ seq (length (c_store c)) (length H) /\
    fp32_params c' = fp32_params c ++ List.filter (trainable_float st) ps /\
    length (c_params c') = length (c_params c) /\
    (forall j, j < i \/ i + length ps <= j -> c_params c' !! j = c_params c !! j) /\
    (forall k p, ps !! k = Some p ->
       c_params c' !! (i + k) =
       if trainable_half st p
       then Some (length (c_store c)
                  + length (List.filter (trainable_half st) (take k ps)))
       else c_params c !! (i + k)).
Proof.
  induction ps as [|p ps IH]; intros i c ext Hc Hacc Hlen H.
  - exists c, []. simpl. rewrite !app_nil_r.
    repeat split; try reflexivity.
    + intros j q Hq. inversion Hq.
    + intros k q Hq. inversion Hq.
  - apply Forall_cons in Hacc as [Hp Hacc]. simpl in Hlen.
    destruct (accepted_lookup _ _ Hp) as [x Hx].
    destruct (trainable_half st p) eqn:Eh.
    + (* a trainable half parameter *)
      simpl. rewrite (convert_param_half st ext i p c x Hc Hx Eh).
      set (c1 := {| c_store := c_store c ++ [fp32_copy x] |}).
      destruct (IH (S i) c1 (ext ++ [fp32_copy x])) as
        (c' & ext' & Hrun & Hst & Hl & Hcl & H16 & Hms & H32 & Hsl & Hfr & Hk).
      { unfold c1; simpl. rewrite Hc, <- app_assoc. reflexivity. }
      { exact Hacc. }
      { unfold c1; simpl. rewrite length_insert. lia. }
      unfold c1 in *; simpl in *. clear c1.
      subst H. simpl. rewrite Eh. simpl.
      exists c', (fp32_copy x :: ext').
      split; [exact Hrun|].
      split; [rewrite Hst, <- app_assoc; reflexivity|].
      split; [simpl; rewrite Hl; reflexivity|].
      split.
      { intros [|j] q Hq; simpl in *.
        - injection Hq as <-. rewrite Hx. reflexivity.
        - apply Hcl. exact Hq. }
      split; [rewrite H16, <- app_assoc; reflexivity|].
      split.
      { rewrite Hms, <- app_assoc, length_app. simpl.
        rewrite Nat.add_1_r. reflexivity. }
      split; [rewrite (trainable_half_not_float _ _ Eh); exact H32|].
      split; [rewrite Hsl, length_insert; reflexivity|].
      split.
      { intros j Hj. rewrite Hfr by lia.
        apply list_lookup_insert_ne. lia. }
      intros [|k] q Hq; simpl in Hq.
      * injection Hq as <-. rewrite Eh, Nat.add_0_r. simpl. rewrite Nat.add_0_r.
        rewrite Hfr by lia. apply list_lookup_insert_eq. lia.
      * replace (i + S k) with (S (i + k)) by lia.
        specialize (Hk k q Hq). cbn [Nat.add] in Hk. rewrite Hk.
        destruct (trainable_half st q).
        -- simpl. rewrite Eh. simpl. rewrite length_app. simpl. f_equal. lia.
        -- apply list_lookup_insert_ne. lia.
    + (* a trainable float parameter, or a frozen one *)
      simpl. rewrite (convert_param_other st ext i p c Hc Hp Eh).
      set (c1 := if trainable_float st p then _ else c).
      assert (E1 : c_store c1 = c_store c /\ c_params c1 = c_params c /\
                   fp16_params c1 = fp16_params c /\
                   fp32_master_params c1 = fp32_master_params c /\
                   fp32_params c1 =
                     fp32_params c ++ (if trainable_float st p then [p] else [])).
      { unfold c1. destruct (trainable_float st p); simpl;
          rewrite ?app_nil_r; repeat split. }
      destruct E1 as (E1 & E2 & E3 & E4 & E5).
      destruct (IH (S i) c1 ext) as
        (c' & ext' & Hrun & Hst & Hl & Hcl & H16 & Hms & H32 & Hsl & Hfr & Hk).
      { rewrite E1. exact Hc. }
      { exact Hacc. }
      { rewrite E2. lia. }
      rewrite E1 in Hst, Hms, Hk. rewrite E2 in Hsl, Hfr, Hk.
      rewrite E3 in H16. rewrite E4 in Hms. rewrite E5 in H32.
      subst H. simpl. rewrite Eh.
      exists c', ext'.
      split; [exact Hrun|]. split; [exact Hst|]. split; [exact Hl|].
      split; [exact Hcl|]. split; [exact H16|]. split; [exact Hms|].
      split.
      { rewrite H32, <- app_assoc. destruct (trainable_float st p); reflexivity. }
      split; [exact Hsl|].
      split; [intros j Hj; apply Hfr; lia|].
      intros [|k] q Hq; simpl in Hq.
      * injection Hq as <-. rewrite Eh, Nat.add_0_r. apply Hfr. lia.
      * replace (i + S k) with (S (i + k)) by lia.
        specialize (Hk k q Hq). cbn [Nat.add] in Hk. rewrite Hk.
        simpl. rewrite Eh. reflexivity.
Qed.

(** The loop raises TypeError as soon as it meets a parameter that is not
    accepted. *)
Lemma convert_params_rejected st ps :
  forall i (c : conv) ext,
  c_store c = st ++ ext ->
  Forall (fun p => is_Some (st !! p)) ps ->
  Exists (fun p => accepted st p = false) ps ->
  convert_params i ps c = inl TypeError.
Proof.
  induction ps as [|p ps IH]; intros i c ext Hc Hval Hex; [inversion Hex|].
  apply Forall_cons in Hval as [[x Hx] Hval]. simpl.
  destruct (accepted st p) eqn:Ea.
  - apply Exists_cons in Hex as [Hex|Hex]; [congruence|].
    destruct (trainable_half st p) eqn:Eh.
    + rewrite (convert_param_half st ext i p c x Hc Hx Eh).
      apply (IH _ _ (ext ++ [fp32_copy x])); try assumption.
      simpl. rewrite Hc, <- app_assoc. reflexivity.
    + rewrite (convert_param_other st ext i p c Hc Ea Eh).
      apply (IH _ _ ext); try assumption.
      destruct (trainable_float st p); exact Hc.
  - rewrite (convert_param_rejected st ext i p c x Hc Hx Ea). reflexivity.
Qed.

(** The loop over the groups, on parameters that are all accepted.  The
    clones go to the end of the store in the order of the trainable half
    parameters, group after group; group [gi] gets the masters
    [n, n+1, ...] for some [n] past the store the construction started
    from, and its slots are rewritten accordingly. *)
Lemma convert_groups_ok st gs :
  forall (b : built) ext,
  b_store b = st ++ ext ->
  Forall (fun g : param_group =>
            Forall (fun p => accepted st p = true) (params g)) gs ->
  let Hs := map (fun g : param_group =>
                   List.filter (trainable_half st) (params g)) gs in
  exists b' ext' Ms Gs,
    convert_groups gs b = inr b' /\
    b_store b' = b_store b ++ ext' /\
    length ext' = length (concat Hs) /\
    (forall j p, concat Hs !! j = Some p -> ext' !! j = fp32_copy <$> st !! p) /\
    b_fp16 b' = b_fp16 b ++ Hs /\
    b_fp32 b' =
      b_fp32 b ++ map (fun g : param_group =>
                         List.filter (trainable_float st) (params g)) gs /\
    b_master b' = b_master b ++ Ms /\
    Forall2 (fun (H M : list nat) => length M = length H) Hs Ms /\
    concat Ms = seq (length (b_store b)) (length (concat Hs)) /\
    b_groups b' = b_groups b ++ Gs /\
    (forall gi (g : param_group), gs !! gi = Some g ->
       exists (g' : param_group) n,
         Gs !! gi = Some g' /\
         Ms !! gi = Some (seq n (length (List.filter (trainable_half st) (params g)))) /\
         length (b_store b) <= n /\
         snd g' = snd g /\
         length (params g') = length (params g) /\
         forall k p, params g !! k = Some p ->
           params g' !! k =
           Some (if trainable_half st p
                 then n + length (List.filter (trainable_half st)
                                    (take k (params g)))
                 else p)).
Proof.
  induction gs as [|g gs IH]; intros b ext Hb Hacc Hs.
  - exists b, [], [], []. simpl. rewrite !app_nil_r.
    repeat split; try reflexivity; try constructor.
    + intros j p Hp. inversion Hp.
    + intros gi g Hg. inversion Hg.
  - apply Forall_cons in Hacc as [Hg Hacc]. simpl.
    destruct (convert_params_ok st (params g) 0
                (mk_conv (b_store b) (params g) (b_state b) [] [] []) ext)
      as (c' & e1 & Hrun & Hst & Hl & Hcl & H16 & Hms & H32 & Hsl & Hfr & Hk);
      [exact Hb | exact Hg | simpl; lia |].
    simpl in Hst, H16, Hms, H32, Hsl, Hfr, Hk.
    rewrite Hrun.
    set (b1 := {| b_store := c_store c' |}).
    destruct (IH b1 (ext ++ e1)) as
      (b' & e2 & Ms & Gs & Hrun' & Hst' & Hl' & Hcl' & H16' & H32' & Hms' &
       Hf2 & Hcat & Hgs & Hidx).
    { unfold b1; simpl. rewrite Hst, Hb, <- app_assoc. reflexivity. }
    { exact Hacc. }
    unfold b1 in Hst', H16', H32', Hms', Hcat, Hgs, Hidx; simpl in *.
    set (H := List.filter (trainable_half st) (params g)) in *.
    exists b', (e1 ++ e2), (seq (length (b_store b)) (length H) :: Ms),
      ((c_params c', snd g) :: Gs).
    split; [exact Hrun'|].
    split; [rewrite Hst', Hst, <- app_assoc; reflexivity|].
    split; [rewrite !length_app, Hl, Hl'; reflexivity|].
    split.
    { intros j p Hp. destruct (decide (j < length H)) as [Hj|Hj].
      - rewrite lookup_app_l in Hp by exact Hj.
        rewrite lookup_app_l by (rewrite Hl; exact Hj). apply Hcl, Hp.
      - rewrite lookup_app_r in Hp by lia.
        rewrite lookup_app_r by (rewrite Hl; lia). rewrite Hl. apply Hcl', Hp. }
    split; [rewrite H16', H16, <- app_assoc; reflexivity|].
    split; [rewrite H32', H32, <- app_assoc; reflexivity|].
    split; [rewrite Hms', Hms, <- app_assoc; reflexivity|].
    split; [constructor; [apply length_seq | exact Hf2]|].
    split.
    { simpl. rewrite Hcat, Hst, !length_app, Hl, seq_app. reflexivity. }
    split; [rewrite Hgs, <- app_assoc; reflexivity|].
    intros [|gi] g0 Hg0; simpl in Hg0.
    + injection Hg0 as <-. exists (c_params c', snd g), (length (b_store b)).
      split; [reflexivity|]. split; [reflexivity|]. split; [lia|].
      split; [reflexivity|]. split; [exact Hsl|].
      intros k p Hp. specialize (Hk k p Hp). simpl in Hk.
      unfold params at 1. simpl. rewrite Hk.
      destruct (trainable_half st p); [reflexivity | exact Hp].
    + destruct (Hidx gi g0 Hg0) as (g' & n & H1 & H2 & H3 & H4 & H5 & H6).
      exists g', n. split; [exact H1|]. split; [exact H2|].
      split; [rewrite Hst, length_app in H3; lia|].
      split; [exact H4|]. split; [exact H5 | exact H6].
Qed.

Lemma convert_groups_rejected st gs :
  forall (b : built) ext,
  b_store b = st ++ ext ->
  Forall (fun g : param_group =>
            Forall (fun p => is_Some (st !! p)) (params g)) gs ->
  Exists (fun g : param_group =>
            Exists (fun p => accepted st p = false) (params g)) gs ->
  convert_groups gs b = inl TypeError.
Proof.
  induction gs as [|g gs IH]; intros b ext Hb Hval Hex; [inversion Hex|].
  apply Forall_cons in Hval as [Hg Hval]. simpl.
  destruct (Exists_dec (fun p => accepted st p = false) (params g)) as [Hbad|Hok].
  - rewrite (convert_params_rejected st (params g) 0 _ ext); auto.
  - assert (Hacc : Forall (fun p => accepted st p = true) (params g)).
    { apply Forall_forall. intros p Hp.
      destruct (accepted st p) eqn:E; [reflexivity|].
      exfalso. apply Hok, Exists_exists. exists p. split; assumption. }
    destruct (convert_params_ok st (params g) 0
                (mk_conv (b_store b) (params g) (b_state b) [] [] []) ext)
      as (c' & e1 & Hrun & Hst & _); [exact Hb | exact Hacc | simpl; lia |].
    rewrite Hrun. apply Exists_cons in Hex as [Hex|Hex]; [contradiction|].
    apply (IH _ (ext ++ e1)); try assumption.
    simpl. simpl in Hst. rewrite Hst, Hb, <- app_assoc. reflexivity.
Qed.

Lemma Forall_all_params (P : nat -> Prop) (gs : list param_group) :
  Forall P (concat (map params gs)) ->
  Forall (fun g : param_group => Forall P (params g)) gs.
Proof.
  induction gs as [|g gs IH]; simpl; intros H; [constructor|].
  apply Forall_app in H as [H1 H2]. constructor; auto.
Qed.

Lemma Exists_all_params (P : nat -> Prop) (gs : list param_group) :
  Exists P (concat (map params gs)) ->
  Exists (fun g : param_group => Exists P (params g)) gs.
Proof.
  induction gs as [|g gs IH]; simpl; intros H; [inversion H|].
  apply Exists_app in H as [H|H]; [left; exact H | right; auto].
Qed.

Lemma concat_filter (f : nat -> bool) (gs : list param_group) :
  concat (map (fun g : param_group => List.filter f (params g)) gs) =
  List.filter f (concat (map params gs)).
Proof.
  induction gs as [|g gs IH]; simpl; [reflexivity|].
  rewrite List.filter_app, IH. reflexivity.
Qed.

Lemma elem_of_filter (f : nat -> bool) (l : list nat) p :
  p ∈ List.filter f l <-> p ∈ l /\ f p = true.
Proof. rewrite !list_elem_of_In. apply filter_In. Qed.

Lemma NoDup_filter_bool (f : nat -> bool) (l : list nat) :
  NoDup l -> NoDup (List.filter f l).
Proof.
  induction l as [|a l IH]; simpl; intros H; [constructor|].
  apply NoDup_cons in H as [Ha H]. destruct (f a); [|auto].
  apply NoDup_cons. split; [|auto].
  intros Hin. apply elem_of_filter in Hin as [Hin _]. contradiction.
Qed.

Lemma zip_concat (Hs Ms : list (list nat)) :
  Forall2 (fun (H M : list nat) => length M = length H) Hs Ms ->
  concat (zip_with zip Hs Ms) = zip (concat Hs) (concat Ms).
Proof.
  induction 1 as [|H M Hs Ms Hlen _ IH]; simpl; [reflexivity|].
  rewrite IH. symmetry. apply zip_with_app. symmetry. exact Hlen.
Qed.

Lemma map_fst_zip_seq (l : list nat) n :
  map fst (zip l (seq n (length l))) = l.
Proof.
  revert n. induction l as [|a l IH]; intros n; simpl; [reflexivity|].
  rewrite IH. reflexivity.
Qed.

Lemma map_snd_zip_seq (l : list nat) n :
  map snd (zip l (seq n (length l))) = seq n (length l).
Proof.
  revert n. induction l as [|a l IH]; intros n; simpl; [reflexivity|].
  rewrite IH. reflexivity.
Qed.

(** What a successful construction leaves, from the store [st] and the
    wrapped optimizer it was given.  [H] are the trainable half parameters
    of all groups in order. *)
Lemma init_inv gpc st (opt : optimizer) sc clip dp mp w :
  Forall (fun p => is_Some (st !! p)) (all_params opt) ->
  __init__ gpc st opt sc clip dp mp = inr w ->
  let H := List.filter (trainable_half st) (all_params opt) in
  exists (b : built) ext Gs,
    convert_groups (param_groups opt) (mk_built st [] (state opt) [] [] []) = inr b /\
    Forall (fun p => accepted st p = true) (all_params opt) /\
    tensors w = st ++ ext /\ b_store b = st ++ ext /\
    length ext = length H /\
    (forall j p, H !! j = Some p -> ext !! j = fp32_copy <$> st !! p) /\
    _fp16_param_groups (self w) =
      map (fun g : param_group => List.filter (trainable_half st) (params g))
        (param_groups opt) /\
    _fp32_param_groups (self w) =
      map (fun g : param_group => List.filter (trainable_float st) (params g))
        (param_groups opt) /\
    Forall2 (fun (H M : list nat) => length M = length H)
      (_fp16_param_groups (self w)) (_fp32_master_param_groups (self w)) /\
    concat (_fp32_master_param_groups (self w)) = seq (length st) (length H) /\
    b_master b = _fp32_master_param_groups (self w) /\
    b_groups b = Gs /\
    (forall gi (g : param_group), param_groups opt !! gi = Some g ->
       exists (g' : param_group) n,
         Gs !! gi = Some g' /\
         _fp32_master_param_groups (self w) !! gi =
           Some (seq n (length (List.filter (trainable_half st) (params g)))) /\
         length st <= n /\
         snd g' = snd g /\
         length (params g') = length (params g) /\
         forall k p, params g !! k = Some p ->
           params g' !! k =
           Some (if trainable_half st p
                 then n + length (List.filter (trainable_half st)
                                    (take k (params g)))
                 else p)).
Proof.
  intros Hval Hinit H.
  assert (Hacc : Forall (fun p => accepted st p = true) (all_params opt)).
  { apply Forall_forall. intros p Hp.
    destruct (accepted st p) eqn:E; [reflexivity|]. exfalso.
    unfold __init__ in Hinit.
    rewrite (convert_groups_rejected st (param_groups opt) _ []) in Hinit.
    - discriminate.
    - simpl. rewrite app_nil_r. reflexivity.
    - apply Forall_all_params. exact Hval.
    - apply Exists_all_params, Exists_exists. exists p. split; assumption. }
  destruct (convert_groups_ok st (param_groups opt)
              (mk_built st [] (state opt) [] [] []) [])
    as (b & ext & Ms & Gs & Hrun & Hst & Hl & Hcl & H16 & H32 & Hms & Hf2 &
        Hcat & Hgs & Hidx).
  { simpl. rewrite app_nil_r. reflexivity. }
  { apply Forall_all_params. exact Hacc. }
  simpl in Hst, H16, H32, Hms, Hcat, Hgs, Hidx.
  rewrite concat_filter in Hl, Hcl, Hcat. fold (all_params opt) in Hl, Hcl, Hcat.
  unfold __init__ in Hinit. rewrite Hrun in Hinit.
  destruct (opt_load_state_dict _ _ _ _) as [[groups state_]|]; [|discriminate].
  injection Hinit as <-. simpl.
  exists b, ext, Gs.
  rewrite H16, H32, Hms. repeat (split; [first [assumption | reflexivity]|]).
  exact Hidx.
Qed.

Lemma init_pairs gpc st (opt : optimizer) sc clip dp mp w :
  Forall (fun p => is_Some (st !! p)) (all_params opt) ->
  __init__ gpc st opt sc clip dp mp = inr w ->
  let H := List.filter (trainable_half st) (all_params opt) in
  pairs (self w) = zip H (seq (length st) (length H)).
Proof.
  intros Hval Hinit H.
  destruct (init_inv _ _ _ _ _ _ _ _ Hval Hinit)
    as (b & ext & Gs & _ & _ & _ & _ & _ & _ & H16 & _ & Hf2 & Hcat & _).
  unfold pairs. rewrite (zip_concat _ _ Hf2), Hcat, H16, concat_filter.
  reflexivity.
Qed.

(** The construction establishes the pairing, when no parameter is listed
    twice. *)
Lemma init_paired gpc st (opt : optimizer) sc clip dp mp w :
  Forall (fun p => is_Some (st !! p)) (all_params opt) ->
  NoDup (all_params opt) ->
  __init__ gpc st opt sc clip dp mp = inr w ->
  paired w.
Proof.
  intros Hval Hnd Hinit.
  pose proof (init_pairs _ _ _ _ _ _ _ _ Hval Hinit) as Hp. simpl in Hp.
  destruct (init_inv _ _ _ _ _ _ _ _ Hval Hinit)
    as (b & ext & Gs & _ & _ & Hst & _ & Hl & Hcl & _).
  set (H := List.filter (trainable_half st) (all_params opt)) in *.
  assert (Hlt : forall p, p ∈ H -> exists x, st !! p = Some x /\ type_ x = HalfTensor).
  { intros p Hin. apply elem_of_filter in Hin as [_ Hh].
    unfold trainable_half in Hh. destruct (st !! p) as [x|]; [|discriminate].
    exists x. split; [reflexivity|].
    apply andb_true_iff in Hh as [_ Hty]. apply bool_decide_eq_true in Hty.
    exact Hty. }
  split; rewrite Hp.
  - rewrite map_fst_zip_seq. apply NoDup_filter_bool, Hnd.
  - rewrite map_fst_zip_seq, map_snd_zip_seq. intros p Hin Hs.
    destruct (Hlt p Hin) as (x & Hx & _). apply lookup_lt_Some in Hx.
    apply list_elem_of_In, in_seq in Hs. lia.
  - rewrite map_fst_zip_seq. intros p Hin.
    destruct (Hlt p Hin) as (x & Hx & Hty). exists x. split; [|exact Hty].
    rewrite Hst, lookup_app_l by (eapply lookup_lt_Some, Hx). exact Hx.
  - rewrite map_snd_zip_seq. intros m Hin.
    apply list_elem_of_In, in_seq in Hin.
    destruct (lookup_lt_is_Some_2 H (m - length st)) as [p Hj]; [lia|].
    assert (Hp' : p ∈ H) by (apply list_elem_of_lookup; eauto).
    destruct (Hlt p Hp') as (x & Hx & _).
    exists (fp32_copy x). split; [|reflexivity].
    rewrite Hst, lookup_app_r by lia. rewrite (Hcl _ _ Hj), Hx. reflexivity.
Qed.

(** What every returning [step()] keeps: the three tracked groups and the
    type of every tensor. *)
Lemma step_frame n w res w' :
  step n w = inr (res, w') ->
  Forall2 same_type (tensors w) (tensors w') /\
  pairs (self w') = pairs (self w) /\
  (fst res = true ->
     exists st4,
       Forall2 same_type (tensors w) st4 /\
       tensors w' =
         fold_left (fun st pr => copy_ (fst pr) (snd pr) st) (pairs (self w)) st4).
Proof.
  unfold step.
  destruct (_assign_grad_to_fp32_master_param (self w) (tensors w)) as [e|st] eqn:Ea;
    [discriminate|].
  rewrite assign_grad_flat in Ea. apply assigns_frame in Ea.
  apply grad_only_same_type in Ea.
  pose proof (grad_only_none_same_type _ _ (unscale_grads_frame (self w) st)) as Hun.
  assert (H2 : Forall2 same_type (tensors w) (_unscale_grads (self w) st)).
  { eapply Forall2_trans_list; [apply same_type_trans|exact Ea|exact Hun]. }
  unfold _check_overflow.
  set (found := reduce_over _ _ (reduce_over _ _ _)).
  destruct (Qlt_bool 0 found); cbn zeta iota beta.
  - intros [= <- <-]. cbn [tensors self fst].
    split; [|split; [reflexivity | discriminate]].
    eapply Forall2_trans_list; [apply same_type_trans|exact H2|].
    rewrite zero_grad_flat.
    apply grad_only_none_same_type, zero_gard_by_list_frame.
  - set (o2 := set_grad_scaler _ _).
    match goal with
    | |- context [if Qlt_bool 0 (_clip_grad_max_norm o2) then ?a else ?b] =>
      assert (H3 : exists st3 gn log,
                 (if Qlt_bool 0 (_clip_grad_max_norm o2) then a else b) =
                 (st3, gn, log) /\
                 Forall2 same_type (tensors w) st3)
    end.
    { destruct (Qlt_bool 0 (_clip_grad_max_norm o2)).
      - pose proof (clip_grad_norm_frame o2 (_clip_grad_max_norm o2)
                      (_unscale_grads (self w) st)) as Hc.
        destruct (clip_grad_norm _ _ _) as [st3 norm]. simpl in Hc.
        eexists _, _, _. split; [reflexivity|].
        eapply Forall2_trans_list; [apply same_type_trans|exact H2|].
        apply grad_only_same_type, Hc.
      - eexists _, _, _. split; [reflexivity|]. exact H2. }
    destruct H3 as (st3 & gn & log & E3 & H3).
    rewrite E3. cbn zeta iota beta.
    pose proof (optimizer_step_frame (_optimizer o2) st3) as H4.
    destruct (optimizer_step (_optimizer o2) st3) as [b4 st4]. simpl in H4.
    unfold _update_fp16_param_from_fp32_param.
    pose proof (multi_tensor_copy_store (pairs (set_optimizer o2 b4))
                  (Some (_dummy_overflow_buf (set_optimizer o2 b4))) st4) as H5.
    destruct (_multi_tensor_copy_this_to_that _ _ _ st4) as [st5 buf].
    simpl in H5. intros [= <- <-]. cbn [tensors self fst].
    assert (H4' : Forall2 same_type (tensors w) st4).
    { eapply Forall2_trans_list; [apply same_type_trans|exact H3|].
      apply data_only_same_type, H4. }
    split; [|split; [reflexivity|]].
    + eapply Forall2_trans_list; [apply same_type_trans|exact H4'|].
      rewrite H5. apply data_only_same_type, copies_frame.
    + intros _. exists st4. split; [exact H4'|]. exact H5.
Qed.

Lemma step_paired n w res w' :
  paired w -> step n w = inr (res, w') -> paired w'.
Proof.
  intros [Hnd Hdis Hh Hf] Hstep.
  destruct (step_frame _ _ _ _ Hstep) as (Hty & Hp & _).
  split; rewrite Hp; try assumption.
  - intros p Hin. destruct (Hh p Hin) as (x & Hx & Hxt).
    eapply same_type_lookup; eauto.
  - intros p Hin. destruct (Hf p Hin) as (x & Hx & Hxt).
    eapply same_type_lookup; eauto.
Qed.

(** After a successful step every half parameter holds the contents of its
    master, cast to half. *)
Lemma step_copy_back n w gn w' a m :
  paired w -> step n w = inr ((true, gn), w') -> (a, m) ∈ pairs (self w) ->
  exists xa xm,
    tensors w' !! a = Some xa /\ tensors w' !! m = Some xm /\
    type_ xa = HalfTensor /\ type_ xm = FloatTensor /\
    data xa = convert HalfTensor (data xm).
Proof.
  intros [Hnd Hdis Hh Hf] Hstep Hin.
  destruct (step_frame _ _ _ _ Hstep) as (_ & _ & Hs).
  destruct (Hs eq_refl) as (st4 & Hty & ->).
  assert (Ha : a ∈ map fst (pairs (self w))).
  { apply list_elem_of_In, in_map_iff. exists (a, m). split; [reflexivity|].
    apply list_elem_of_In, Hin. }
  assert (Hm : m ∈ map snd (pairs (self w))).
  { apply list_elem_of_In, in_map_iff. exists (a, m). split; [reflexivity|].
    apply list_elem_of_In, Hin. }
  destruct (Hh a Ha) as (x & Hx & Hxt). destruct (Hf m Hm) as (y & Hy & Hyt).
  destruct (same_type_lookup _ _ _ _ _ Hty Hx Hxt) as (xa & Hxa & Hta).
  destruct (same_type_lookup _ _ _ _ _ Hty Hy Hyt) as (xm & Hxm & Htm).
  destruct (copies_pair (pairs (self w)) st4 a m xa xm Hnd Hdis Hin Hxa Hxm)
    as [H1 H2].
  exists (set_data (copy_value xm xa) xa), xm.
  split; [exact H1|]. split; [exact H2|].
  split; [exact Hta|]. split; [exact Htm|].
  simpl. unfold copy_value. rewrite Hta, Htm.
  rewrite decide_False by discriminate. reflexivity.
Qed.

Lemma lookup_map {A C} (f : A -> C) (l : list A) i :
  map f l !! i = f <$> l !! i.
Proof.
  revert i. induction l as [|a l IH]; intros [|i]; simpl; try reflexivity.
  apply IH.
Qed.

Lemma elem_of_zip_seq (l : list nat) n a m :
  (a, m) ∈ zip l (seq n (length l)) <->
  exists j, l !! j = Some a /\ m = n + j.
Proof.
  revert n. induction l as [|b l IH]; intros n; simpl.
  - split; [intros H; inversion H | intros (j & H & _); inversion H].
  - rewrite elem_of_cons, IH. split.
    + intros [[= -> ->]|(j & Hj & ->)].
      * exists 0. split; [reflexivity | lia].
      * exists (S j). split; [exact Hj | lia].
    + intros ([|j] & Hj & ->); simpl in Hj.
      * left. injection Hj as ->. f_equal. lia.
      * right. exists j. split; [exact Hj | lia].
Qed.

(** Each master is the float clone of the half parameter it is paired
    with, and lies past the store the construction started from. *)
Lemma init_clones gpc st (opt : optimizer) sc clip dp mp w a m :
  Forall (fun p => is_Some (st !! p)) (all_params opt) ->
  __init__ gpc st opt sc clip dp mp = inr w ->
  (a, m) ∈ pairs (self w) ->
  trainable_half st a = true /\ a ∈ all_params opt /\ length st <= m /\
  exists x, st !! a = Some x /\ tensors w !! m = Some (fp32_copy x).
Proof.
  intros Hval Hinit Hin.
  rewrite (init_pairs _ _ _ _ _ _ _ _ Hval Hinit) in Hin.
  apply elem_of_zip_seq in Hin as (j & Hj & ->).
  destruct (init_inv _ _ _ _ _ _ _ _ Hval Hinit)
    as (b & ext & Gs & _ & _ & Hst & _ & Hl & Hcl & _).
  assert (Ha : a ∈ List.filter (trainable_half st) (all_params opt))
    by (apply list_elem_of_lookup; eauto).
  apply elem_of_filter in Ha as [Ha Hh].
  split; [exact Hh|]. split; [exact Ha|]. split; [lia|].
  unfold trainable_half in Hh. destruct (st !! a) as [x|] eqn:Hx; [|discriminate].
  exists x. split; [reflexivity|].
  rewrite Hst, lookup_app_r by lia.
  replace (length st + j - length st) with j by lia.
  rewrite (Hcl _ _ Hj), Hx. reflexivity.
Qed.

(** On accepted parameters the loops of the constructor do not raise. *)
Lemma init_error gpc st (opt : optimizer) sc clip dp mp e :
  Forall (fun p => accepted st p = true) (all_params opt) ->
  __init__ gpc st opt sc clip dp mp = inl e -> e = ValueError.
Proof.
  intros Hacc.
  destruct (convert_groups_ok st (param_groups opt)
              (mk_built st [] (state opt) [] [] []) [])
    as (b & ext & Ms & Gs & Hrun & _).
  { simpl. rewrite app_nil_r. reflexivity. }
  { apply Forall_all_params. exact Hacc. }
  unfold __init__. rewrite Hrun.
  destruct (opt_load_state_dict _ _ _ _) as [[groups state_]|]; [discriminate|].
  intros [= <-]. reflexivity.
Qed.

Lemma init_type_error gpc st (opt : optimizer) sc clip dp mp :
  Forall (fun p => is_Some (st !! p)) (all_params opt) ->
  Exists (fun p => accepted st p = false) (all_params opt) ->
  __init__ gpc st opt sc clip dp mp = inl TypeError.
Proof.
  intros Hval Hex. unfold __init__.
  rewrite (convert_groups_rejected st (param_groups opt) _ []).
  - reflexivity.
  - simpl. rewrite app_nil_r. reflexivity.
  - apply Forall_all_params. exact Hval.
  - apply Exists_all_params. exact Hex.
Qed.

(** The slot of a parameter in the group of the wrapped optimizer, after
    the loops. *)
Lemma init_slots gpc st (opt : optimizer) sc clip dp mp w (b : built) gi
    (g : param_group) k p :
  Forall (fun p => is_Some (st !! p)) (all_params opt) ->
  __init__ gpc st opt sc clip dp mp = inr w ->
  convert_groups (param_groups opt) (mk_built st [] (state opt) [] [] []) = inr b ->
  param_groups opt !! gi = Some g -> params g !! k = Some p ->
  exists g' : param_group,
    b_groups b !! gi = Some g' /\ snd g' = snd g /\
    if trainable_half st p
    then exists m, params g' !! k = Some m /\ (p, m) ∈ pairs (self w)
    else params g' !! k = Some p.
Proof.
  intros Hval Hinit Hb Hg Hp.
  destruct (init_inv _ _ _ _ _ _ _ _ Hval Hinit)
    as (b0 & ext & Gs & Hb0 & _ & _ & _ & _ & _ & H16 & _ & _ & _ & _ & HGs & Hidx).
  rewrite Hb in Hb0. injection Hb0 as <-.
  destruct (Hidx gi g Hg) as (g' & n & H1 & H2 & _ & H4 & _ & H6).
  exists g'. rewrite HGs. split; [exact H1|]. split; [exact H4|].
  rewrite (H6 k p Hp).
  destruct (trainable_half st p) eqn:Eh; [|reflexivity].
  eexists. split; [reflexivity|].
  eapply pairs_lookup.
  - rewrite H16, lookup_map, Hg. reflexivity.
  - exact H2.
  - apply filter_take_lookup; [exact Hp | exact Eh].
  - apply lookup_seq. split; [reflexivity|].
    apply lookup_lt_is_Some_1. eexists.
    apply filter_take_lookup; [exact Hp | exact Eh].
Qed.

(** The wrapped optimizer of the wrapper is what its own
    [load_state_dict] makes of its own [state_dict()], taken after the
    loops have put the masters into the groups and re-keyed the state. *)
Lemma init_optimizer gpc st (opt : optimizer) sc clip dp mp w :
  __init__ gpc st opt sc clip dp mp = inr w ->
  exists b : built,
    convert_groups (param_groups opt)
      (mk_built st [] (state opt) [] [] []) = inr b /\
    tensors w = b_store b /\
    opt_load_state_dict (b_store b) (b_groups b) (b_state b)
      (opt_state_dict (b_groups b) (b_state b)) =
    Some (param_groups (_optimizer (self w)), state (_optimizer (self w))).
Proof.
  unfold __init__.
  destruct (convert_groups _ _) as [e|b]; [discriminate|].
  destruct (opt_load_state_dict _ _ _ _) as [[groups state_]|] eqn:E;
    [|discriminate].
  intros [= <-]. exists b. split; [reflexivity|]. split; [reflexivity|].
  exact E.
Qed.

(** What the constructor accepts.  Let every parameter of the wrapped
    optimizer be a tensor of the store.  If one of them is trainable and
    its type is neither [torch.cuda.HalfTensor] nor
    [torch.cuda.FloatTensor] (a bf16 parameter is such a one), the
    constructor raises TypeError.  Otherwise the loops of the constructor do
    not raise (only the round trip of the wrapped optimizer through its own
    state dictionary can, with its ValueError), and in the wrapper that is
    built every trainable half parameter is tracked and paired with a new
    tensor past the old store that is its float clone and sits in its slot
    of the groups that the loops leave, while every trainable float
    parameter is tracked alone and keeps its slot; the wrapped optimizer of
    the wrapper is what its own round trip makes of these groups. *)
Theorem init_accepts_half_and_float_only gpc st (opt : optimizer) sc clip dp mp :
  Forall (fun p => is_Some (st !! p)) (all_params opt) ->
  (Exists (fun p => accepted st p = false) (all_params opt) ->
   __init__ gpc st opt sc clip dp mp = inl TypeError) /\
  (Forall (fun p => accepted st p = true) (all_params opt) ->
   forall e, __init__ gpc st opt sc clip dp mp = inl e -> e = ValueError) /\
  (forall w, __init__ gpc st opt sc clip dp mp = inr w ->
     Forall (fun p => accepted st p = true) (all_params opt) /\
     _fp16_param_groups (self w) =
       map (fun g : param_group => List.filter (trainable_half st) (params g))
         (param_groups opt) /\
     _fp32_param_groups (self w) =
       map (fun g : param_group => List.filter (trainable_float st) (params g))
         (param_groups opt) /\
     (forall a m, (a, m) ∈ pairs (self w) ->
        trainable_half st a = true /\ length st <= m /\
        exists x, st !! a = Some x /\ tensors w !! m = Some (fp32_copy x)) /\
     exists b : built,
       convert_groups (param_groups opt)
         (mk_built st [] (state opt) [] [] []) = inr b /\
       opt_load_state_dict (b_store b) (b_groups b) (b_state b)
         (opt_state_dict (b_groups b) (b_state b)) =
       Some (param_groups (_optimizer (self w)), state (_optimizer (self w))) /\
       forall gi (g : param_group) k p,
         param_groups opt !! gi = Some g -> params g !! k = Some p ->
         exists g' : param_group,
           b_groups b !! gi = Some g' /\ snd g' = snd g /\
           if trainable_half st p
           then exists m, params g' !! k = Some m /\ (p, m) ∈ pairs (self w)
           else params g' !! k = Some p).
Proof.
  intros Hval. split; [apply init_type_error, Hval|].
  split; [intros Hacc e; apply init_error, Hacc|].
  intros w Hinit.
  destruct (init_inv _ _ _ _ _ _ _ _ Hval Hinit)
    as (b & ext & Gs & Hb & Hacc & _ & _ & _ & _ & H16 & H32 & _).
  split; [exact Hacc|]. split; [exact H16|]. split; [exact H32|].
  split.
  - intros a m Hin.
    destruct (init_clones _ _ _ _ _ _ _ _ _ _ Hval Hinit Hin) as (H1 & _ & H2 & H3).
    auto.
  - exists b. split; [exact Hb|]. split.
    + destruct (init_optimizer _ _ _ _ _ _ _ _ Hinit) as (b' & Hb' & _ & Hload).
      rewrite Hb in Hb'. injection Hb' as <-. exact Hload.
    + intros gi g k p Hg Hp. eapply init_slots; eauto.
Qed.

(** Where no half parameter is frozen, the trainable half entries are the
    half entries. *)
Lemma filter_half_entries st (l : list nat) :
  Forall (fun p => half_entry st p = true -> frozen st p = false) l ->
  List.filter (trainable_half st) l = List.filter (half_entry st) l.
Proof.
  intros H. apply filter_ext_in. intros p Hp.
  pose proof (proj1 (Forall_forall _ _) H p (proj2 (list_elem_of_In _ _) Hp)) as Hf.
  unfold trainable_half, half_entry, frozen in *.
  destruct (st !! p) as [x|]; [|reflexivity].
  destruct (bool_decide (type_ x = HalfTensor)).
  - specialize (Hf eq_refl). destruct (requires_grad x); [reflexivity|discriminate].
  - apply andb_false_r.
Qed.

(** C8, for the half parameters that are trainable.  After a construction
    from parameters that are tensors of the store, none listed twice: group
    by group there are as many masters as tracked half parameters, in all as
    many as the wrapped optimizer has trainable half entries (which are all
    its half entries when none of them is frozen), and the master at a
    position is the float clone of the half parameter at that position.
    After every [step()] that
    returns success on a wrapper with this pairing, the pairing still holds
    and every half parameter holds the contents of the master at its
    position, cast to half; this is so whatever [_dummy_overflow_buf]
    holds, that is on the batched path and on the loop of copies alike. *)
Theorem master_live_pairing gpc st (opt : optimizer) sc clip dp mp w0 :
  Forall (fun p => is_Some (st !! p)) (all_params opt) ->
  NoDup (all_params opt) ->
  __init__ gpc st opt sc clip dp mp = inr w0 ->
  (Forall2 (fun (G16 G32 : list nat) => length G32 = length G16)
     (_fp16_param_groups (self w0)) (_fp32_master_param_groups (self w0)) /\
   length (concat (_fp32_master_param_groups (self w0))) =
     length (List.filter (trainable_half st) (all_params opt)) /\
   (Forall (fun p => half_entry st p = true -> frozen st p = false)
      (all_params opt) ->
    length (concat (_fp32_master_param_groups (self w0))) =
      length (List.filter (half_entry st) (all_params opt))) /\
   concat (_fp16_param_groups (self w0)) =
     List.filter (trainable_half st) (all_params opt) /\
   (forall g i G16 G32 a m,
      _fp16_param_groups (self w0) !! g = Some G16 ->
      _fp32_master_param_groups (self w0) !! g = Some G32 ->
      G16 !! i = Some a -> G32 !! i = Some m ->
      exists x, st !! a = Some x /\ tensors w0 !! m = Some (fp32_copy x)) /\
   paired w0) /\
  (forall n w gn w',
     paired w -> step n w = inr ((true, gn), w') ->
     paired w' /\
     _fp16_param_groups (self w') = _fp16_param_groups (self w) /\
     _fp32_master_param_groups (self w') = _fp32_master_param_groups (self w) /\
     forall g i G16 G32 a m,
       _fp16_param_groups (self w) !! g = Some G16 ->
       _fp32_master_param_groups (self w) !! g = Some G32 ->
       G16 !! i = Some a -> G32 !! i = Some m ->
       exists xa xm,
         tensors w' !! a = Some xa /\ tensors w' !! m = Some xm /\
         data xa = convert HalfTensor (data xm)).
Proof.
  intros Hval Hnd Hinit. split.
  - destruct (init_inv _ _ _ _ _ _ _ _ Hval Hinit)
      as (b & ext & Gs & _ & _ & _ & _ & _ & _ & H16 & _ & Hf2 & Hcat & _).
    split; [exact Hf2|].
    split; [rewrite Hcat; apply length_seq|].
    split; [intros Hnf; rewrite <- (filter_half_entries st _ Hnf), Hcat;
            apply length_seq|].
    split; [rewrite H16; apply concat_filter|].
    split; [|eapply init_paired; eauto].
    intros g i G16 G32 a m Hg1 Hg2 Ha Hm.
    pose proof (pairs_lookup _ _ _ _ _ _ _ Hg1 Hg2 Ha Hm) as Hin.
    destruct (init_clones _ _ _ _ _ _ _ _ _ _ Hval Hinit Hin) as (_ & _ & _ & H).
    exact H.
  - intros n w gn w' Hp Hstep.
    split; [eapply step_paired; eauto|].
    assert (Hgroups : _fp16_param_groups (self w') = _fp16_param_groups (self w) /\
                      _fp32_master_param_groups (self w') =
                        _fp32_master_param_groups (self w)).
    { clear -Hstep. unfold step in Hstep.
      destruct (_assign_grad_to_fp32_master_param _ _); [discriminate|].
      unfold _check_overflow in Hstep.
      destruct (Qlt_bool 0 _); cbn zeta iota beta in Hstep;
        [discriminate|].
      destruct (Qlt_bool 0 _).
      - destruct (clip_grad_norm _ _ _). cbn zeta iota beta in Hstep.
        destruct (optimizer_step _ _).
        unfold _update_fp16_param_from_fp32_param in Hstep.
        destruct (_multi_tensor_copy_this_to_that _ _ _ _).
        injection Hstep as _ <-. split; reflexivity.
      - destruct (optimizer_step _ _).
        unfold _update_fp16_param_from_fp32_param in Hstep.
        destruct (_multi_tensor_copy_this_to_that _ _ _ _).
        injection Hstep as _ <-. split; reflexivity. }
    split; [apply Hgroups|]. split; [apply Hgroups|].
    intros g i G16 G32 a m Hg1 Hg2 Ha Hm.
    pose proof (pairs_lookup _ _ _ _ _ _ _ Hg1 Hg2 Ha Hm) as Hin.
    destruct (step_copy_back _ _ _ _ _ _ Hp Hstep Hin)
      as (xa & xm & H1 & H2 & _ & _ & H3).
    eauto.
Qed.

(** C10.  Let every parameter of the wrapped optimizer be a tensor of the
    store and let [p] be one whose [requires_grad] is false, of whatever
    type.  In the wrapper that a construction builds, [p] is in none of the
    three tracked groups and is paired with no master, and each slot of the
    wrapped optimizer that held [p] still holds it.  A TypeError of the
    constructor always comes from a parameter whose [requires_grad] is
    true. *)
Theorem frozen_parameters_are_skipped gpc st (opt : optimizer) sc clip dp mp p :
  Forall (fun p => is_Some (st !! p)) (all_params opt) ->
  frozen st p = true ->
  (forall w, __init__ gpc st opt sc clip dp mp = inr w ->
     (p ∉ concat (_fp16_param_groups (self w))) /\
     (p ∉ concat (_fp32_master_param_groups (self w))) /\
     (p ∉ concat (_fp32_param_groups (self w))) /\
     (forall m, (p, m) ∉ pairs (self w)) /\
     forall (b : built) gi (g : param_group) k,
       convert_groups (param_groups opt)
         (mk_built st [] (state opt) [] [] []) = inr b ->
       param_groups opt !! gi = Some g -> params g !! k = Some p ->
       exists g' : param_group,
         b_groups b !! gi = Some g' /\ params g' !! k = Some p) /\
  (__init__ gpc st opt sc clip dp mp = inl TypeError ->
   exists q x,
     q ∈ all_params opt /\ st !! q = Some x /\ requires_grad x = true /\
     type_ x <> HalfTensor /\ type_ x <> FloatTensor).
Proof.
  intros Hval Hfr.
  assert (Hx : exists x, st !! p = Some x /\ requires_grad x = false).
  { unfold frozen in Hfr. destruct (st !! p) as [x|]; [|discriminate].
    exists x. split; [reflexivity|]. destruct (requires_grad x); [discriminate|reflexivity]. }
  destruct Hx as (x & Hx & Hrg).
  assert (Hh : trainable_half st p = false).
  { unfold trainable_half. rewrite Hx, Hrg. reflexivity. }
  assert (Hf : trainable_float st p = false).
  { unfold trainable_float. rewrite Hx, Hrg. reflexivity. }
  split.
  - intros w Hinit.
    destruct (init_inv _ _ _ _ _ _ _ _ Hval Hinit)
      as (b & ext & Gs & Hb & _ & _ & _ & _ & _ & H16 & H32 & _ & Hcat & _).
    split.
    { rewrite H16, concat_filter. intros Hin.
      apply elem_of_filter in Hin as [_ Hin]. congruence. }
    split.
    { rewrite Hcat. intros Hin. apply list_elem_of_In, in_seq in Hin.
      apply lookup_lt_Some in Hx. lia. }
    split.
    { rewrite H32, concat_filter. intros Hin.
      apply elem_of_filter in Hin as [_ Hin]. congruence. }
    split.
    { intros m Hin.
      destruct (init_clones _ _ _ _ _ _ _ _ _ _ Hval Hinit Hin) as (H1 & _).
      congruence. }
    intros b' gi g k Hb' Hg Hp.
    destruct (init_slots _ _ _ _ _ _ _ _ _ _ _ _ _ Hval Hinit Hb' Hg Hp)
      as (g' & H1 & _ & H2).
    rewrite Hh in H2. eauto.
  - intros Herr.
    destruct (Exists_dec (fun q => accepted st q = false) (all_params opt))
      as [Hex|Hall].
    + apply Exists_exists in Hex as (q & Hq & Hacc).
      pose proof (proj1 (Forall_forall _ _) Hval q Hq) as [y Hy].
      exists q, y. split; [exact Hq|]. split; [exact Hy|].
      unfold accepted in Hacc. rewrite Hy in Hacc.
      destruct (requires_grad y); simpl in Hacc; [|discriminate].
      apply orb_false_iff in Hacc as [H1 H2].
      apply bool_decide_eq_false in H1, H2. auto.
    + exfalso.
      assert (Hacc : Forall (fun q => accepted st q = true) (all_params opt)).
      { apply Forall_forall. intros q Hq.
        destruct (accepted st q) eqn:E; [reflexivity|].
        exfalso. apply Hall, Exists_exists. eauto. }
      pose proof (init_error _ _ _ _ _ _ _ _ Hacc Herr). discriminate.
Qed.

(** ** Checkpoints *)

Lemma copy_groups_flat (current ckpt : list (list nat)) st :
  copy_groups current ckpt st =
  fold_left (fun st pr => copy_ (fst pr) (snd pr) st)
    (concat (zip_with zip current ckpt)) st.
Proof.
  unfold copy_groups. revert ckpt st.
  induction current as [|a l IH]; intros [|b k] st; simpl; try reflexivity.
  rewrite fold_left_app. apply IH.
Qed.

Lemma copy_self m st : copy_ m m st = st.
Proof.
  unfold copy_. destruct (st !! m) as [x|] eqn:Hx; [|reflexivity].
  apply list_eq. intros i. rewrite list_lookup_alter.
  destruct (decide (m = i)) as [<-|]; [|reflexivity].
  rewrite Hx. simpl. f_equal. unfold copy_value.
  rewrite decide_True by reflexivity. destruct x; reflexivity.
Qed.

Lemma copy_groups_self (current : list (list nat)) st :
  copy_groups current current st = st.
Proof.
  unfold copy_groups. revert st.
  induction current as [|a l IH]; intros st; simpl; [reflexivity|].
  rewrite IH. clear IH. revert st.
  induction a as [|m a IHa]; intros st; simpl; [reflexivity|].
  rewrite copy_self. apply IHa.
Qed.

Lemma zip_groups_lookup (current ckpt : list (list nat)) g i G C m c :
  current !! g = Some G -> ckpt !! g = Some C ->
  G !! i = Some m -> C !! i = Some c ->
  (m, c) ∈ concat (zip_with zip current ckpt).
Proof.
  intros HG HC Hm Hc.
  apply list_elem_of_In, in_concat. exists (zip G C). split.
  - apply list_elem_of_In, list_elem_of_lookup. exists g.
    rewrite lookup_zip_with, HG. simpl. rewrite HC. reflexivity.
  - apply list_elem_of_In, list_elem_of_lookup. exists i.
    rewrite lookup_zip_with, Hm. simpl. rewrite Hc. reflexivity.
Qed.

(** The scaler restores its own checkpoint to itself. *)
Lemma scaler_round_trip (s : DynamicGradScaler.t) :
  DynamicGradScaler.load_state_dict s (DynamicGradScaler.state_dict s) = s.
Proof. destruct s. reflexivity. Qed.

(** C9.  [load_state_dict(state_dict())], when it returns, leaves every
    tensor (so every master) and the scaler with its scale, maximal scale
    and two trackers as they are, and touches no attribute of the wrapper
    but the wrapped optimizer, which is handed its own state dictionary and
    ends in the state its own [load_state_dict] gives; when the wrapped
    optimizer restores its own state dictionary to the state it was taken
    from, the call returns and the whole process is as before.  And every
    [load_state_dict] that returns keeps the three lists of tracked
    parameters and the number of tensors and changes nothing but the
    contents of tensors; when the masters it writes are distinct tensors
    and none of them is a tensor of the checkpoint, the master at each
    position that the checkpoint also has is the same tensor as before and
    holds the contents of the checkpoint tensor at that position (cast to
    the type of the master when the types differ), every other tensor being
    as before. *)
Theorem checkpoint_round_trip_and_in_place w :
  (forall w', load_state_dict (state_dict (self w)) w = inr w' ->
     tensors w' = tensors w /\
     _grad_scaler (self w') = _grad_scaler (self w) /\
     self w' = set_optimizer (self w) (_optimizer (self w')) /\
     calls w' = calls w /\
     opt_load_state_dict (tensors w)
       (param_groups (_optimizer (self w))) (state (_optimizer (self w)))
       (opt_state_dict (param_groups (_optimizer (self w)))
          (state (_optimizer (self w)))) =
     Some (param_groups (_optimizer (self w')), state (_optimizer (self w')))) /\
  (opt_load_state_dict (tensors w)
     (param_groups (_optimizer (self w))) (state (_optimizer (self w)))
     (opt_state_dict (param_groups (_optimizer (self w)))
        (state (_optimizer (self w)))) =
   Some (param_groups (_optimizer (self w)), state (_optimizer (self w))) ->
   load_state_dict (state_dict (self w)) w = inr w) /\
  forall d w', load_state_dict d w = inr w' ->
    _fp16_param_groups (self w') = _fp16_param_groups (self w) /\
    _fp32_master_param_groups (self w') = _fp32_master_param_groups (self w) /\
    _fp32_param_groups (self w') = _fp32_param_groups (self w) /\
    length (tensors w') = length (tensors w) /\
    Forall2 data_only (tensors w) (tensors w') /\
    (ck_fp32_master_param_groups d = None -> tensors w' = tensors w) /\
    forall ckpt, ck_fp32_master_param_groups d = Some ckpt ->
      let prs := concat (zip_with zip (_fp32_master_param_groups (self w)) ckpt) in
      NoDup (map fst prs) ->
      (forall p, p ∈ map fst prs -> p ∉ map snd prs) ->
      (forall q, q ∉ map fst prs -> tensors w' !! q = tensors w !! q) /\
      forall g i G C m c xm xc,
        _fp32_master_param_groups (self w) !! g = Some G -> ckpt !! g = Some C ->
        G !! i = Some m -> C !! i = Some c ->
        tensors w !! m = Some xm -> tensors w !! c = Some xc ->
        exists xm',
          tensors w' !! m = Some xm' /\
          data_only xm xm' /\
          (type_ xc = type_ xm -> data xm' = data xc) /\
          (type_ xc <> type_ xm -> data xm' = convert (type_ xm) (data xc)).
Proof.
  split; [|split].
  - intros w'. unfold load_state_dict, state_dict. cbn [ck_optimizer ck_grad_scaler
      ck_fp32_master_param_groups].
    destruct (opt_load_state_dict _ _ _ _) as [[groups state_]|]; [|discriminate].
    intros Hw. cbn zeta in Hw. injection Hw as Hw. subst w'.
    cbn [tensors self calls _fp32_master_param_groups set_grad_scaler
         set_optimizer _grad_scaler _optimizer param_groups state].
    rewrite copy_groups_self, scaler_round_trip.
    repeat (split; [reflexivity|]). reflexivity.
  - intros Hbase. unfold load_state_dict, state_dict. cbn [ck_optimizer
      ck_grad_scaler ck_fp32_master_param_groups]. rewrite Hbase.
    cbn [_fp32_master_param_groups set_grad_scaler set_optimizer _grad_scaler].
    rewrite copy_groups_self, scaler_round_trip.
    destruct w as [st o log]. destruct o as [opt sc f b c dp mp g16 g32 gf].
    destruct opt as [gs s]. reflexivity.
  - intros d w'. unfold load_state_dict.
    destruct (opt_load_state_dict _ _ _ _) as [[groups state_]|]; [|discriminate].
    intros Hw. cbn zeta in Hw. injection Hw as Hw. subst w'.
    destruct (ck_grad_scaler d) as [sd|];
      cbn [self tensors set_grad_scaler set_optimizer _fp16_param_groups
           _fp32_master_param_groups _fp32_param_groups];
      repeat (split; [reflexivity|]).
    all: destruct (ck_fp32_master_param_groups d) as [ckpt|];
      [ rewrite copy_groups_flat;
        split; [symmetry; eapply Forall2_length, copies_frame|];
        split; [apply copies_frame|];
        split; [discriminate|];
        intros ckpt' [= <-] Hnd Hdis; split;
        [ intros q Hq; apply copies_lookup_ne, Hq
        | intros g i G C m c xm xc HG HC Hm Hc Hxm Hxc;
          pose proof (zip_groups_lookup _ _ _ _ _ _ _ _ HG HC Hm Hc) as Hin;
          destruct (copies_pair _ (tensors w) m c xm xc Hnd Hdis Hin Hxm Hxc)
            as [Hnew _];
          exists (set_data (copy_value xc xm) xm);
          split; [exact Hnew|]; split; [repeat split|];
          unfold copy_value; cbn [data set_data]; split; intros Hty;
          [ rewrite decide_True by exact Hty; reflexivity
          | rewrite decide_False by exact Hty; reflexivity ] ]
      | split; [reflexivity|];
        split; [apply Forall2_refl_list, data_only_refl|];
        split; [reflexivity|]; intros ckpt' [=] ].
Qed.

End WrapperFacts.

(** * The model at work *)

Section Examples.
Import FP16Optimizer.
#[local] Existing Instance demo_kernels.
#[local] Existing Instance demo_optimizer.
Local Open Scope Q_scope.

Lemma demo_init :
  __init__ demo_context demo_store demo_base demo_scaler 0 None None =
  inr demo_world.
Proof. reflexivity. Qed.

Lemma demo_init_inf :
  __init__ demo_context demo_store_inf demo_base demo_scaler 0 None None =
  inr demo_world_inf.
Proof. reflexivity. Qed.

Lemma demo_params_valid (st : list (@tensor demo_kernels)) :
  length st = 3%nat ->
  Forall (fun p => is_Some (st !! p)) (all_params demo_base).
Proof.
  intros Hl. destruct st as [|x0 [|x1 [|x2 [|]]]]; try discriminate.
  repeat constructor; eexists; reflexivity.
Qed.

Lemma demo_params_nodup : NoDup (all_params demo_base).
Proof.
  change (NoDup [0; 1; 2]%nat).
  repeat (apply NoDup_cons; split;
          [intros H; repeat (apply elem_of_cons in H as [H|H]; [discriminate|]);
           inversion H|]).
  apply NoDup_nil. exact I.
Qed.

(** Whatever role it is asked for, the local function of the constructor
    answers with the data-parallel group. *)
Lemma get_process_group_ignores_role (gpc : context) (m : ParallelMode) :
  _get_process_group gpc m = _get_process_group gpc DATA.
Proof. reflexivity. Qed.

(** C2, at an input where the roles are not told apart.  Two processes,
    each alone in its data-parallel group [[r]], form the model-parallel
    group [[0, 1]].  A wrapper constructed without explicit groups holds the
    data-parallel group under both roles, because [_get_process_group]
    looks up the data-parallel role whatever it is asked for.  When process
    1 alone finds a gradient that is not finite, the check of process 0
    answers false, although a member of its model-parallel group detected
    an overflow; with the model-parallel group in place it answers true. *)
Theorem model_parallel_role_resolves_to_data_parallel_group :
  get_group (rank_context 0) DATA = [0%nat] /\
  get_group (rank_context 0) MODEL = [0; 1]%nat /\
  _get_process_group (rank_context 0) MODEL = Some [0%nat] /\
  (exists w,
     __init__ (rank_context 0) demo_store demo_base demo_scaler 0 None None =
       inr w /\
     _dp_process_group (self w) = Some [0%nat] /\
     _mp_process_group (self w) = Some [0%nat]) /\
  check_all (fun r => _get_process_group (rank_context r) DATA)
    (fun r => _get_process_group (rank_context r) MODEL) [false; true] =
    [false; true] /\
  check_all (fun r => Some (get_group (rank_context r) DATA))
    (fun r => Some (get_group (rank_context r) MODEL)) [false; true] =
    [true; true].
Proof.
  repeat (split; [reflexivity|]).
  split; [|split; reflexivity].
  eexists. split; [reflexivity|]. split; reflexivity.
Qed.

(** C1 on a wrapper that holds a data-parallel group of two processes: its
    own gradients are finite, the other member brings a positive flag, and
    the step is skipped. *)
Lemma step_updates_scaler_once_and_skips_on_overflow_witness :
  NoDup (map fst (pairs (self demo_world_peer))) /\
  exists res w',
    step (mk_net [1] []) demo_world_peer = inr (res, w') /\
    res = (false, None) /\
    calls w' = [ScalerUpdate true; ZeroGrad] /\
    _grad_scaler (self w') = DynamicGradScaler.update demo_scaler true /\
    forall p, data <$> tensors w' !! p = data <$> tensors demo_world_peer !! p.
Proof.
  assert (Hnd : NoDup (map fst (pairs (self demo_world_peer)))).
  { change (NoDup [0%nat]). apply NoDup_singleton. }
  split; [exact Hnd|].
  destruct (step_updates_scaler_once_and_skips_on_overflow
              (mk_net [1] []) demo_world_peer) as [Hret Hall].
  destruct (Hret Hnd) as (res & w' & Hstep).
  { intros p Hp. change (p ∈ [0%nat]) in Hp.
    apply elem_of_cons in Hp as [->|Hp]; [|inversion Hp].
    eexists _, _. split; reflexivity. }
  destruct (Hall res w' Hstep)
    as (st & overflow & _ & Hflag & _ & Hsc & Hov).
  assert (Ho : overflow = true).
  { apply Hflag. right. left. split; [eexists; reflexivity|].
    exists 1. split; [left | reflexivity]. }
  subst overflow.
  destruct (Hov eq_refl) as (Hres & Hcalls & _ & _ & Hdata & _).
  exists res, w'. split; [exact Hstep|]. split; [exact Hres|].
  split; [exact Hcalls|]. split; [exact Hsc | exact Hdata].
Defined.

(** C1 as stated does not hold for every call: after a step that returned,
    the half parameter has no gradient, and a second [step()] without a
    backward pass in between raises AttributeError when it reads that
    gradient, before the scaler is reached.  The same happens on a wrapper
    whose half parameter never had a gradient. *)
Lemma step_without_gradient_raises :
  (exists w',
     step (mk_net [] []) demo_world = inr ((true, None), w') /\
     calls w' = [ScalerUpdate false; OptimizerStep; CopyBack] /\
     step (mk_net [] []) w' = inl AttributeError /\
     ~ (exists res w'', step (mk_net [] []) w' = inr (res, w''))) /\
  step (mk_net [] []) demo_world_nograd = inl AttributeError.
Proof.
  split; [|reflexivity].
  eexists. split; [reflexivity|].
  split; [reflexivity|].
  assert (E : forall e : error, e = AttributeError ->
                ~ (exists res w'' : _, @inl error ((bool * option Q) * world) e
                                       = inr (res, w''))).
  { intros e _ (res & w'' & H). discriminate. }
  split; [reflexivity|].
  exact (E AttributeError eq_refl).
Qed.

(** C7, at an input where the constructor refuses what the docstring of the
    class announces.  The wrapped optimizer has one parameter, which is
    trainable and whose type is [torch.cuda.BFloat16Tensor]: the constructor
    raises TypeError and builds no wrapper.  With the same parameter of type
    [torch.cuda.HalfTensor] it builds the wrapper, tracks the parameter and
    puts a new float master into its slot of the wrapped optimizer. *)
Theorem bf16_parameter_is_rejected :
  type_ <$> demo_store_bf16 !! 0%nat = Some "torch.cuda.BFloat16Tensor"%string /\
  requires_grad <$> demo_store_bf16 !! 0%nat = Some true /\
  all_params demo_base_bf16 = [0%nat] /\
  __init__ demo_context demo_store_bf16 demo_base_bf16 demo_scaler 0 None None =
    inl TypeError /\
  ~ (exists w,
       __init__ demo_context demo_store_bf16 demo_base_bf16 demo_scaler
         0 None None = inr w) /\
  exists w,
    __init__ demo_context demo_store_half demo_base_bf16 demo_scaler
      0 None None = inr w /\
    _fp16_param_groups (self w) = [[0%nat]] /\
    _fp32_master_param_groups (self w) = [[1%nat]] /\
    param_groups (_optimizer (self w)) = [([1%nat], tt)] /\
    type_ <$> tensors w !! 1%nat = Some FloatTensor.
Proof.
  assert (E : __init__ demo_context demo_store_bf16 demo_base_bf16 demo_scaler
                0 None None = inl TypeError) by reflexivity.
  split; [reflexivity|]. split; [reflexivity|]. split; [reflexivity|].
  split; [exact E|]. split.
  - intros [w H]. rewrite E in H. discriminate.
  - eexists. split; [reflexivity|]. repeat (split; [reflexivity|]). reflexivity.
Qed.

(** The constructor on the three parameters of [demo_store]. *)
Lemma init_accepts_half_and_float_only_witness :
  Forall (fun p => is_Some (demo_store !! p)) (all_params demo_base) /\
  _fp16_param_groups (self demo_world) = [[0%nat]] /\
  _fp32_param_groups (self demo_world) = [[1%nat]] /\
  forall a m, (a, m) ∈ pairs (self demo_world) ->
    trainable_half demo_store a = true /\ (3 <= m)%nat /\
    exists x, demo_store !! a = Some x /\
              tensors demo_world !! m = Some (fp32_copy x).
Proof.
  pose proof (demo_params_valid demo_store eq_refl) as Hval.
  split; [exact Hval|].
  destruct (init_accepts_half_and_float_only demo_context demo_store demo_base
              demo_scaler 0 None None Hval) as (_ & _ & H).
  destruct (H demo_world demo_init) as (_ & H16 & H32 & Hp & _).
  split; [exact H16|]. split; [exact H32 | exact Hp].
Defined.

(** C8 on the wrapper built on [demo_store], and on its first step. *)
Lemma master_live_pairing_witness :
  NoDup (all_params demo_base) /\
  paired demo_world /\
  exists w' xa xm,
    step (mk_net [] []) demo_world = inr ((true, None), w') /\
    tensors w' !! 0%nat = Some xa /\ tensors w' !! 3%nat = Some xm /\
    data xa = convert HalfTensor (data xm).
Proof.
  split; [exact demo_params_nodup|].
  destruct (master_live_pairing demo_context demo_store demo_base demo_scaler
              0 None None demo_world
              (demo_params_valid demo_store eq_refl) demo_params_nodup demo_init)
    as [(_ & _ & _ & _ & _ & Hp) Hstep].
  split; [exact Hp|].
  assert (E : exists w', step (mk_net [] []) demo_world = inr ((true, None), w')).
  { eexists. reflexivity. }
  destruct E as [w' E].
  destruct (Hstep _ _ _ _ Hp E) as (_ & _ & _ & Hpos).
  destruct (Hpos 0%nat 0%nat [0%nat] [3%nat] 0%nat 3%nat
              eq_refl eq_refl eq_refl eq_refl) as (xa & xm & H1 & H2 & H3).
  exists w', xa, xm. auto.
Defined.

(** C8 as stated does not hold: of a trainable and a frozen half parameter
    only the trainable one gets a master, so the wrapped optimizer has two
    half entries and the wrapper one master. *)
Lemma frozen_half_parameter_gets_no_master :
  exists w,
    __init__ demo_context demo_store_frozen_half demo_base_frozen_half
      demo_scaler 0 None None = inr w /\
    List.filter (half_entry demo_store_frozen_half)
      (all_params demo_base_frozen_half) = [0; 1]%nat /\
    _fp16_param_groups (self w) = [[0%nat]] /\
    _fp32_master_param_groups (self w) = [[2%nat]] /\
    length (concat (_fp32_master_param_groups (self w))) <>
      length (List.filter (half_entry demo_store_frozen_half)
                (all_params demo_base_frozen_half)).
Proof.
  eexists. split; [reflexivity|].
  split; [reflexivity|]. split; [reflexivity|]. split; [reflexivity|].
  change (1%nat <> 2%nat). discriminate.
Qed.

(** C9 on [demo_world_ckpt]: the round trip, and the loading of a
    checkpoint whose master is another tensor, after which the master holds
    the contents of that tensor and the scaler the scale of the
    checkpoint. *)
Lemma checkpoint_round_trip_and_in_place_witness :
  load_state_dict (state_dict (self demo_world_ckpt)) demo_world_ckpt =
    inr demo_world_ckpt /\
  exists w' xm',
    load_state_dict demo_checkpoint demo_world_ckpt = inr w' /\
    _fp32_master_param_groups (self w') = [[3%nat]] /\
    tensors w' !! 3%nat = Some xm' /\
    type_ xm' = FloatTensor /\
    data xm' = Some 9 /\
    (forall q, q <> 3%nat -> tensors w' !! q = tensors demo_world_ckpt !! q).
Proof.
  destruct (checkpoint_round_trip_and_in_place demo_world_ckpt)
    as (_ & Hrt & Hload).
  split; [exact (Hrt eq_refl)|].
  assert (E : exists w', load_state_dict demo_checkpoint demo_world_ckpt = inr w').
  { eexists. reflexivity. }
  destruct E as [w' E].
  destruct (Hload _ _ E) as (_ & H32 & _ & _ & _ & _ & Hck).
  destruct (Hck [[4%nat]] eq_refl) as [Hother Hpos].
  { change (NoDup [3%nat]). apply NoDup_singleton. }
  { intros p Hp. change (p ∈ [3%nat]) in Hp. change (p ∉ [4%nat]).
    apply elem_of_cons in Hp as [->|Hp]; [|inversion Hp].
    intros H. apply elem_of_cons in H as [H|H]; [discriminate | inversion H]. }
  destruct (Hpos 0%nat 0%nat [3%nat] [4%nat] 3%nat 4%nat _ _
              eq_refl eq_refl eq_refl eq_refl eq_refl eq_refl)
    as (xm' & Hm & (Hty & _) & Hsame & _).
  exists w', xm'. split; [exact E|]. split; [exact H32|].
  split; [exact Hm|]. split; [exact Hty|].
  split; [exact (Hsame eq_refl)|].
  intros q Hq. apply Hother. change (q ∉ [3%nat]).
  intros H. apply elem_of_cons in H as [H|H]; [contradiction | inversion H].
Defined.

(** C10 on the frozen bf16 parameter of [demo_store]. *)
Lemma frozen_parameters_are_skipped_witness :
  frozen demo_store 2 = true /\
  (2%nat ∉ concat (_fp16_param_groups (self demo_world))) /\
  (2%nat ∉ concat (_fp32_master_param_groups (self demo_world))) /\
  (2%nat ∉ concat (_fp32_param_groups (self demo_world))).
Proof.
  split; [reflexivity|].
  destruct (frozen_parameters_are_skipped demo_context demo_store demo_base
              demo_scaler 0 None None 2%nat
              (demo_params_valid demo_store eq_refl) eq_refl) as [H _].
  destruct (H demo_world demo_init) as (H1 & H2 & H3 & _).
  split; [exact H1|]. split; [exact H2 | exact H3].
Defined.

End Examples.
